(** * py-emmet: conversion of a token abbreviation into an unrolled node tree

    A shallow embedding of [emmet/abbreviation/convert.py].  Python objects
    that are mutated after they have been handed out (the output nodes) live
    in an explicit store and are named by their address; the conversion
    state and the store are threaded through a state-and-exception monad. *)

From Stdlib Require Import ZArith Ascii String.
From stdpp Require Import base tactics option list relations strings gmap.

Local Open Scope string_scope.
Local Open Scope list_scope.
Local Open Scope Z_scope.

(** ** Tokens (input of the converter) *)

Inductive BracketContext := BGroup | BAttribute | BExpression.

(** Modelled from the spec: the repeater token ([tokens.Repeater(count,
    value, implicit)] in [clone_repeater]); the spec's repeat metadata with
    an optional count, the index of the current pass and the implicit flag. *)
Record Repeater := mkRepeater {
  rep_count : option Z;   (* [count]: an int, or None *)
  rep_value : Z;          (* [value]: index of the current iteration *)
  rep_implicit : bool     (* [implicit] *)
}.

(** Modelled from the spec: the token classes of [tokenizer/tokens.py], which
    the converter imports.  The spec's external interface names the field
    marker (optional numeric index), the quote token (single/double), the
    bracket token (open/close and a kind tag) and the repeat metadata; the
    remaining constructors stand for tokens the converter only renders. *)
Inductive Token :=
| Literal (value : string)
| Field (index : option Z) (name : string)
| Quote (single : bool)
| Bracket (open : bool) (context : BracketContext)
| RepeaterPlaceholder
| RepeaterNumber (size : Z)
| Operator (operator : string)
| WhiteSpace.

(** Modelled from the spec: the attribute, element and group nodes of
    [parser.py], with the fields the converter reads.  A list that may be
    absent is an [option]. *)
Record TokenAttribute := mkTokenAttribute {
  tattr_name : option (list Token);
  tattr_value : option (list Token);
  tattr_expression : bool
}.

#[warnings="-register-all"]
Inductive TokenNode :=
| TokenGroup (elements : list TokenNode) (repeat : option Repeater)
| TokenElement (name : option (list Token)) (value : option (list Token))
    (attributes : option (list TokenAttribute)) (elements : list TokenNode)
    (repeat : option Repeater) (self_close : bool).

Definition node_elements (node : TokenNode) : list TokenNode :=
  match node with
  | TokenGroup elements _ => elements
  | TokenElement _ _ _ elements _ _ => elements
  end.

Definition node_repeat (node : TokenNode) : option Repeater :=
  match node with
  | TokenGroup _ repeat => repeat
  | TokenElement _ _ _ _ repeat _ => repeat
  end.

(** Modelled from the spec: [is_quote] and [is_bracket] of [parser.py]
    (a quote token; a bracket token of the given kind and direction). *)
Definition is_quote (token : Token) : bool :=
  match token with Quote _ => true | _ => false end.

Definition context_eqb (c1 c2 : BracketContext) : bool :=
  match c1, c2 with
  | BGroup, BGroup | BAttribute, BAttribute | BExpression, BExpression => true
  | _, _ => false
  end.

Definition is_bracket (token : Token) (context : BracketContext) (is_open : bool) : bool :=
  match token with
  | Bracket o c => context_eqb c context && Bool.eqb o is_open
  | _ => false
  end.

(** Modelled from the spec: [token.type], the class tag every token of
    [tokenizer/tokens.py] carries.  A quote token is one class with a
    [single]/[double] discriminant, so both kinds of quote have one tag. *)
Definition token_type (token : Token) : string :=
  match token with
  | Literal _ => "Literal"
  | Field _ _ => "Field"
  | Quote _ => "Quote"
  | Bracket _ _ => "Bracket"
  | RepeaterPlaceholder => "RepeaterPlaceholder"
  | RepeaterNumber _ => "RepeaterNumber"
  | Operator _ => "Operator"
  | WhiteSpace => "WhiteSpace"
  end.

(** ** Output nodes *)

(** An element of a value list: a rendered string or a preserved field token. *)
Inductive Segment :=
| SegStr (s : string)
| SegField (token : Token).

Inductive ValueType := raw | expression | singleQuote | doubleQuote.

Record AbbreviationAttribute := mkAttribute {
  attr_name : option string;
  attr_value : option (list Segment);
  attr_value_type : ValueType;
  attr_boolean : bool;
  attr_implied : bool
}.

(** [children] holds the addresses of the child nodes in the store. *)
Record AbbreviationNode := mkNode {
  n_name : option string;
  n_value : option (list Segment);
  n_repeat : option Repeater;
  n_attributes : option (list AbbreviationAttribute);
  n_children : list nat;
  n_self_closing : bool
}.

Record Abbreviation := mkAbbreviation { abbr_children : list nat }.

Abbreviation Store := (list AbbreviationNode).

(** ** Conversion state *)

(** [options['text']]: absent, a string, or a list of strings. *)
Inductive Text :=
| TextNone
| TextStr (s : string)
| TextList (lines : list string).

Record ConvertState := mkState {
  inserted : bool;
  text : Text;
  repeat_guard : option Z;     (* an int, or None *)
  repeaters : list Repeater;   (* a stack, top at the end *)
  variables : option (gmap string string);
  _text_inserted : bool
}.

Record Options := mkOptions {
  opt_text : Text;                                  (* options.get('text') *)
  opt_variables : option (gmap string string);  (* options.get('variables') *)
  opt_max_repeat : option Z                         (* options.get('max_repeat') *)
}.

(** [ConvertState.__init__(text, variables, max_repeat)] as [convert] calls
    it, with all three arguments given positionally. *)
Definition ConvertState_init (text : Text) (variables : option (gmap string string))
    (max_repeat : option Z) : ConvertState :=
  {| inserted := false; text := text; repeat_guard := max_repeat;
     variables := variables; repeaters := []; _text_inserted := false |}.

(** [state = ConvertState(text, options.get('variables'), options.get('max_repeat'))] *)
Definition initial_state (options : Options) : ConvertState :=
  ConvertState_init (opt_text options) (opt_variables options) (opt_max_repeat options).

(** The value the signature of [ConvertState.__init__] gives [max_repeat]
    when the argument is omitted. *)
Definition default_max_repeat : Z := 1000000.

(** ** Exceptions, results and the monad *)

Inductive Exn := IndexError | TypeError | AttributeError | RecursionError.

Inductive Res (S A : Type) :=
| Ok (a : A) (s : S)
| Raise (e : Exn).
Arguments Ok {S A} a s.
Arguments Raise {S A} e.

Definition M (S A : Type) := S -> Res S A.

Definition ret {S A} (a : A) : M S A := fun s => Ok a s.
Definition raise {S A} (e : Exn) : M S A := fun _ => Raise e.
Definition bind {S A B} (m : M S A) (k : A -> M S B) : M S B :=
  fun s => match m s with
           | Ok a s' => k a s'
           | Raise e => Raise e
           end.
Definition get {S} : M S S := fun s => Ok s s.
Definition put {S} (s : S) : M S unit := fun _ => Ok tt s.
Definition modify {S} (f : S -> S) : M S unit := fun s => Ok tt (f s).

Notation "'do' x <- m ; k" := (bind m (fun x => k))
  (at level 10, x name, m at level 100, k at level 200, only parsing).

(** ** Strings and Python truthiness *)

Definition newline : string := String (ascii_of_nat 10) EmptyString.

(** [sep.join(parts)] *)
Definition join (sep : string) (parts : list string) : string := String.concat sep parts.

(** [s[-1]], [s[0]], [s[0:-1]] and [s[1:]] on a string. *)
Fixpoint str_last (s : string) : option ascii :=
  match s with
  | EmptyString => None
  | String c EmptyString => Some c
  | String _ s' => str_last s'
  end.

Definition str_first (s : string) : option ascii :=
  match s with
  | EmptyString => None
  | String c _ => Some c
  end.

Fixpoint str_drop_last (s : string) : string :=
  match s with
  | EmptyString => EmptyString
  | String c EmptyString => EmptyString
  | String c s' => String c (str_drop_last s')
  end.

Definition str_drop_first (s : string) : string :=
  match s with
  | EmptyString => EmptyString
  | String _ s' => s'
  end.

(** Truth value of a string-or-None and of a list-or-None. *)
Definition truthy_str (s : option string) : bool :=
  match s with
  | Some (String _ _) => true
  | _ => false
  end.

Definition truthy_list {A} (l : option (list A)) : bool :=
  match l with
  | Some (_ :: _) => true
  | _ => false
  end.

(** ** Methods of the conversion state *)

(** [self.text[pos]] with Python's index rules. *)
Definition py_index {A} (l : list A) (pos : Z) : option A :=
  if (0 <=? pos) && (pos <? Z.of_nat (length l)) then l !! Z.to_nat pos
  else if (pos <? 0) && (- Z.of_nat (length l) <=? pos) then l !! Z.to_nat (Z.of_nat (length l) + pos)
  else None.

Definition set_text_inserted (b : bool) (s : ConvertState) : ConvertState :=
  {| inserted := inserted s; text := text s; repeat_guard := repeat_guard s;
     variables := variables s; repeaters := repeaters s; _text_inserted := b |}.

Definition set_inserted (b : bool) (s : ConvertState) : ConvertState :=
  {| inserted := b; text := text s; repeat_guard := repeat_guard s;
     variables := variables s; repeaters := repeaters s;
     _text_inserted := _text_inserted s |}.

Definition set_repeat_guard (g : option Z) (s : ConvertState) : ConvertState :=
  {| inserted := inserted s; text := text s; repeat_guard := g;
     variables := variables s; repeaters := repeaters s;
     _text_inserted := _text_inserted s |}.

Definition set_repeaters (r : list Repeater) (s : ConvertState) : ConvertState :=
  {| inserted := inserted s; text := text s; repeat_guard := repeat_guard s;
     variables := variables s; repeaters := r;
     _text_inserted := _text_inserted s |}.

Definition get_text (pos : option Z) : M ConvertState string :=
  do _ <- modify (set_text_inserted true);
  do s <- get;
  match text s with
  | TextList lines =>
      match pos with
      | Some p => match py_index lines p with
                  | Some v => ret v
                  | None => raise IndexError
                  end
      | None => ret (join newline lines)
      end
  | TextStr v => ret v
  | TextNone => ret EmptyString
  end.

Definition get_variable (name : string) : M ConvertState string :=
  do s <- get;
  match variables s with
  | Some d => ret (default name (d !! name))   (* self.variables.get(name, name) *)
  | None => raise AttributeError
  end.

(** ** The store of output nodes *)

Record World := mkWorld {
  w_state : ConvertState;
  w_store : Store
}.

#[global] Instance AbbreviationNode_inhabited : Inhabited AbbreviationNode :=
  populate (mkNode None None None None [] false).

(** Runs a computation on the conversion state inside a world. *)
Definition on_state {A} (m : M ConvertState A) : M World A :=
  fun w => match m (w_state w) with
           | Ok a s => Ok a (mkWorld s (w_store w))
           | Raise e => Raise e
           end.

(** A new object: it takes the next free address. *)
Definition alloc (n : AbbreviationNode) : M World nat :=
  fun w => Ok (length (w_store w)) (mkWorld (w_state w) (w_store w ++ [n])).

(** In-place mutation of the object at address [id]. *)
Definition update_node (f : AbbreviationNode -> AbbreviationNode) (id : nat) : M World unit :=
  modify (fun w => mkWorld (w_state w) (alter f id (w_store w))).

(** Reads the object at address [id].  The addresses the converter holds
    were handed out by [alloc], so the lookup never falls outside the store
    (see [convert_statement_safe]). *)
Definition read_node (id : nat) : M World AbbreviationNode :=
  fun w => Ok (w_store w !!! id) w.

Definition set_value (v : option (list Segment)) (n : AbbreviationNode) : AbbreviationNode :=
  mkNode (n_name n) v (n_repeat n) (n_attributes n) (n_children n) (n_self_closing n).

Definition set_repeat (r : option Repeater) (n : AbbreviationNode) : AbbreviationNode :=
  mkNode (n_name n) (n_value n) r (n_attributes n) (n_children n) (n_self_closing n).

Definition set_attributes (a : option (list AbbreviationAttribute)) (n : AbbreviationNode)
    : AbbreviationNode :=
  mkNode (n_name n) (n_value n) (n_repeat n) a (n_children n) (n_self_closing n).

(** [elem.children += items] *)
Definition add_children (items : list nat) (n : AbbreviationNode) : AbbreviationNode :=
  mkNode (n_name n) (n_value n) (n_repeat n) (n_attributes n) (n_children n ++ items)
    (n_self_closing n).

(** ** Small helpers of the module *)

Definition clone_repeater (repeater : Repeater) : Repeater :=
  mkRepeater (rep_count repeater) (rep_value repeater) (rep_implicit repeater).

Fixpoint some {A} (items : list A) (fn : A -> bool) : bool :=
  match items with
  | [] => false
  | item :: rest => if fn item then true else some rest fn
  end.


Definition is_field (token : Token) : bool :=
  match token with
  | Field (Some _) _ => true
  | _ => false
  end.

(** [is_field] on an element of a value list: a string is no [Field]. *)
Definition is_field_seg (seg : Segment) : bool :=
  match seg with
  | SegStr _ => false
  | SegField token => is_field token
  end.

(** [deepest_node]: follows [children[-1]] down to a node without children.
    The recursion is bounded by [fuel]; running out of it stands for Python's
    unbounded recursion on a cyclic structure.  On the stores the converter
    builds the fuel [deepest_node] starts with is enough (see
    [deepest_node_total]). *)
Fixpoint deepest_node_fuel (fuel : nat) (store : Store) (node : nat) : option nat :=
  match fuel with
  | O => None
  | S fuel' =>
      match last (n_children (store !!! node)) with
      | Some child => deepest_node_fuel fuel' store child
      | None => Some node
      end
  end.

Definition deepest_node (node : nat) : M World nat :=
  fun w => match deepest_node_fuel (length (w_store w)) (w_store w) node with
           | Some d => Ok d w
           | None => Raise RecursionError
           end.

(** [insert_text] on the fields of one node. *)
Definition insert_text_node (text : string) (n : AbbreviationNode) : AbbreviationNode :=
  match n_value n with
  | Some (seg :: segs) =>
      match last (seg :: segs) with
      | Some (SegStr last_token) =>
          set_value (Some (removelast (seg :: segs) ++ [SegStr (last_token +:+ text)])) n
      | _ => set_value (Some ((seg :: segs) ++ [SegStr text])) n
      end
  | _ => set_value (Some [SegStr text]) n
  end.

Definition insert_text (node : nat) (text : string) : M World unit :=
  update_node (insert_text_node text) node.

Definition attach_one (repeater : Repeater) (n : AbbreviationNode) : AbbreviationNode :=
  match n_repeat n with
  | Some _ => n
  | None => set_repeat (Some (clone_repeater repeater)) n
  end.

Fixpoint attach_loop (items : list nat) (repeater : Repeater) : M World unit :=
  match items with
  | [] => ret tt
  | item :: rest => do _ <- update_node (attach_one repeater) item; attach_loop rest repeater
  end.

Definition attach_repeater (items : list nat) (repeater : Repeater) : M World (list nat) :=
  do _ <- attach_loop items repeater;
  ret items.

(** ** The converter *)

Section Converter.

(** [stringify(token, state)] of [stringify.py] renders one token.  The
    converter is modelled for any renderer: it is handed the conversion state
    and returns the text together with the state it leaves. *)
Variable stringify : Token -> ConvertState -> string * ConvertState.

Definition render (token : Token) : M ConvertState string :=
  fun s => let (str, s') := stringify token s in Ok str s'.

(** [[stringify(token, state) for token in tokens]] *)
Fixpoint render_all (tokens : list Token) : M ConvertState (list string) :=
  match tokens with
  | [] => ret []
  | token :: rest =>
      do str <- render token;
      do strs <- render_all rest;
      ret (str :: strs)
  end.

Definition stringify_name (tokens : list Token) : M ConvertState string :=
  do parts <- render_all tokens;
  ret (join EmptyString parts).

(** What the loop of [stringify_value] does when it leaves a run of
    rendered tokens: [if accum: result.append(''.join(accum))]. *)
Definition flush (result : list Segment) (accum : list string) : list Segment :=
  match accum with
  | [] => result
  | _ :: _ => result ++ [SegStr (join EmptyString accum)]
  end.

Fixpoint stringify_value_loop (token_list : list Token) (result : list Segment)
    (accum : list string) : M ConvertState (list Segment) :=
  match token_list with
  | [] => ret (flush result accum)
  | token :: rest =>
      if is_field token then
        stringify_value_loop rest (flush result accum ++ [SegField token]) []
      else
        do str <- render token;
        stringify_value_loop rest result (accum ++ [str])
  end.

Definition stringify_value (token_list : list Token) : M ConvertState (list Segment) :=
  stringify_value_loop token_list [] [].

(** [stringify_name(tokens, state) if tokens else None], and the same for values. *)
Definition name_or_none (tokens : option (list Token)) : M ConvertState (option string) :=
  match tokens with
  | Some (t :: ts) => do str <- stringify_name (t :: ts); ret (Some str)
  | _ => ret None
  end.

Definition value_or_none (tokens : option (list Token)) : M ConvertState (option (list Segment)) :=
  match tokens with
  | Some (t :: ts) => do v <- stringify_value (t :: ts); ret (Some v)
  | _ => ret None
  end.

Definition AbbreviationNode_init (name value : option (list Token))
    (repeat : option Repeater) (self_close : bool) : M World nat :=
  do nm <- on_state (name_or_none name);
  do v <- on_state (value_or_none value);
  alloc (mkNode nm v (clone_repeater <$> repeat) None [] self_close).

Definition is_char (c : ascii) (o : option ascii) : bool :=
  match o with
  | Some c' => Ascii.eqb c' c
  | None => false
  end.

Definition AbbreviationAttribute_init (node : TokenAttribute) : M ConvertState AbbreviationAttribute :=
  do name <- name_or_none (tattr_name node);
  let value_type := if tattr_expression node then expression else raw in
  match name with
  | Some (String c s) =>
      let nm := String c s in
      (* if self.name[-1] == '.' *)
      let boolean := is_char "." (str_last nm) in
      let nm := if boolean then str_drop_last nm else nm in
      (* if self.name[0] == '!' *)
      match str_first nm with
      | None => raise IndexError
      | Some c0 =>
          if Ascii.eqb c0 "!" then
            ret (mkAttribute (Some (str_drop_first nm)) None value_type boolean true)
          else
            ret (mkAttribute (Some nm) None value_type boolean false)
      end
  | _ => ret (mkAttribute name None value_type false false)
  end.

Definition quote_single (token : Token) : bool :=
  match token with Quote single => single | _ => false end.

(** [if tokens and pred(tokens[-1]): tokens.pop()] *)
Definition pop_last_if (pred : Token -> bool) (tokens : list Token) : list Token :=
  match last tokens with
  | Some t => if pred t then removelast tokens else tokens
  | None => tokens
  end.

Definition set_attr_value (v : option (list Segment)) (vt : ValueType)
    (a : AbbreviationAttribute) : AbbreviationAttribute :=
  mkAttribute (attr_name a) v vt (attr_boolean a) (attr_implied a).

Definition convert_attribute (node : TokenAttribute) : M ConvertState AbbreviationAttribute :=
  do attr <- AbbreviationAttribute_init node;
  match tattr_value node with
  | Some (first :: rest) =>
      if is_quote first then
        (* quote = tokens.pop(0) *)
        let tokens := pop_last_if (fun t => String.eqb (token_type t) (token_type first)) rest in
        let value_type := if quote_single first then singleQuote else doubleQuote in
        do v <- stringify_value tokens;
        ret (set_attr_value (Some v) value_type attr)
      else if is_bracket first BExpression true then
        let tokens := pop_last_if (fun t => is_bracket t BExpression false) rest in
        do v <- stringify_value tokens;
        ret (set_attr_value (Some v) expression attr)
      else
        do v <- stringify_value (first :: rest);
        ret (set_attr_value (Some v) (attr_value_type attr) attr)
  | _ => ret attr
  end.

(** [[convert_attribute(attr, state) for attr in node.attributes]] *)
Fixpoint convert_attributes (attrs : list TokenAttribute) : M ConvertState (list AbbreviationAttribute) :=
  match attrs with
  | [] => ret []
  | attr :: rest =>
      do a <- convert_attribute attr;
      do more <- convert_attributes rest;
      ret (a :: more)
  end.

(** The test that ends [convert_element]: a text-only snippet without fields. *)
Definition text_only (elem : AbbreviationNode) : bool :=
  negb (truthy_str (n_name elem)) && negb (truthy_list (n_attributes elem))
  && truthy_list (n_value elem) && negb (some (default [] (n_value elem)) is_field_seg).

(** [for child in node.elements: elem.children += convert_statement(child, state)];
    [rec] is [convert_statement]. *)
Definition convert_children (rec : TokenNode -> M World (list nat)) (elem : nat)
    : list TokenNode -> M World unit :=
  fix loop (elements : list TokenNode) : M World unit :=
    match elements with
    | [] => ret tt
    | child :: rest =>
        do items <- rec child;
        do _ <- update_node (add_children items) elem;
        loop rest
    end.

(** [convert_element] on the fields of the element; [repeat] is the value
    [node.repeat] holds during the call. *)
Definition convert_element_of (rec : TokenNode -> M World (list nat))
    (name value : option (list Token)) (attributes : option (list TokenAttribute))
    (elements : list TokenNode) (repeat : option Repeater) (self_close : bool)
    : M World (list nat) :=
  do elem <- AbbreviationNode_init name value repeat self_close;
  do _ <- convert_children rec elem elements;
  do _ <- match attributes with
      | Some (a :: attrs) =>
          do converted <- on_state (convert_attributes (a :: attrs));
          update_node (set_attributes (Some converted)) elem
      | _ => ret tt
      end;
  do e <- read_node elem;
  if text_only e then ret ([elem] ++ n_children e) else ret [elem].

(** [for child in node.elements: result += convert_statement(child, state)] *)
Definition convert_statements (rec : TokenNode -> M World (list nat))
    : list TokenNode -> list nat -> M World (list nat) :=
  fix loop (elements : list TokenNode) (result : list nat) : M World (list nat) :=
    match elements with
    | [] => ret result
    | child :: rest =>
        do items <- rec child;
        loop rest (result ++ items)
    end.

Definition convert_group_of (rec : TokenNode -> M World (list nat))
    (elements : list TokenNode) (repeat : option Repeater) : M World (list nat) :=
  do result <- convert_statements rec elements [];
  match repeat with
  | Some repeater => attach_repeater result repeater
  | None => ret result
  end.

(** [repeat.count or 1], and the count an implicit repeater takes from a text list. *)
Definition count_or_1 (count : option Z) : Z :=
  match count with
  | Some 0 | None => 1
  | Some c => c
  end.

Definition effective_count (repeat : Repeater) (state : ConvertState) : Z :=
  match rep_implicit repeat, text state with
  | true, TextList lines => Z.of_nat (length lines)
  | _, _ => count_or_1 (rep_count repeat)
  end.

Definition set_count (c : Z) (r : Repeater) : Repeater :=
  mkRepeater (Some c) (rep_value r) (rep_implicit r).

Definition set_rep_value (v : Z) (r : Repeater) : Repeater :=
  mkRepeater (rep_count r) v (rep_implicit r).

(** The repeater on top of the stack is the object the loop updates. *)
Definition set_top (repeat : Repeater) (stack : list Repeater) : list Repeater :=
  match stack with
  | [] => []
  | _ :: _ => removelast stack ++ [repeat]
  end.

(** [repeat.value = i]: the world in which the repeater on top of the stack
    has become [repeat]. *)
Definition set_current (repeat : Repeater) (w : World) : World :=
  mkWorld (set_repeaters (set_top repeat (repeaters (w_state w))) (w_state w)) (w_store w).

Definition push_repeater (repeat : Repeater) : M World unit :=
  on_state (modify (fun s => set_repeaters (repeaters s ++ [repeat]) s)).

Definition pop_repeater : M World unit :=
  on_state (do s <- get;
            match repeaters s with
            | [] => raise IndexError
            | _ :: _ => put (set_repeaters (removelast (repeaters s)) s)
            end).

(** [state.repeat_guard -= 1]; returns the new value. *)
Definition decrement_guard : M World Z :=
  on_state (do s <- get;
            match repeat_guard s with
            | Some g => do _ <- put (set_repeat_guard (Some (g - 1)) s); ret (g - 1)
            | None => raise TypeError
            end).

(** One pass through the body of the [while] loop up to [result += items]:
    converts the node with the repeater at index [i] and, for an implicit
    repeater whose text no placeholder took, puts the text into the deepest
    node. *)
Definition repeat_iteration (body : option Repeater -> M World (list nat))
    (repeat : Repeater) (i : Z) : M World (list nat) :=
  let repeat := set_rep_value i repeat in
  do _ <- modify (set_current repeat);
  do items <- body (Some repeat);
  do w <- get;
  do _ <- (if rep_implicit repeat && negb (inserted (w_state w)) then
         match last items with
         | None => raise IndexError                 (* items[-1] *)
         | Some target =>
             do deepest <- deepest_node target;
             do tx <- on_state (get_text (Some (rep_value repeat)));
             insert_text deepest tx
         end
       else ret tt);
  ret items.

(** [while i < repeat.count], with [remaining = repeat.count - i] passes left. *)
Fixpoint unroll (body : option Repeater -> M World (list nat)) (repeat : Repeater)
    (remaining : nat) (i : Z) (result : list nat) : M World (list nat) :=
  match remaining with
  | O => ret result
  | S remaining' =>
      do items <- repeat_iteration body repeat i;
      let result := result ++ items in
      do guard <- decrement_guard;
      if guard <=? 0 then ret result
      else unroll body repeat remaining' (i + 1) result
  end.

(** The branch of [convert_statement] for a node that is repeated;
    [original] is [node.repeat] and [body] converts the node while
    [node.repeat] is the repeater it is given. *)
Definition unroll_statement (body : option Repeater -> M World (list nat))
    (original : Repeater) : M World (list nat) :=
  do w <- get;
  let count := effective_count (clone_repeater original) (w_state w) in
  let repeat := set_count count (clone_repeater original) in
  do _ <- push_repeater repeat;
  do result <- unroll body repeat (Z.to_nat count) 0 [];
  do _ <- pop_repeater;
  do _ <- (if rep_implicit repeat then on_state (modify (set_inserted true)) else ret tt);
  ret result.

Fixpoint convert_statement (node : TokenNode) : M World (list nat) :=
  (* [convert_group(node, state) if is_group(node) else convert_element(node, state)]
     while [node.repeat] is [repeat] *)
  let body (repeat : option Repeater) : M World (list nat) :=
    match node with
    | TokenGroup elements _ => convert_group_of convert_statement elements repeat
    | TokenElement name value attributes elements _ self_close =>
        convert_element_of convert_statement name value attributes elements repeat self_close
    end in
  match node_repeat node with
  | Some original => unroll_statement body original
  | None => body None
  end.

(** The [body] of [convert_statement] for [node]. *)
Definition statement_body (node : TokenNode) (repeat : option Repeater) : M World (list nat) :=
  match node with
  | TokenGroup elements _ => convert_group_of convert_statement elements repeat
  | TokenElement name value attributes elements _ self_close =>
      convert_element_of convert_statement name value attributes elements repeat self_close
  end.

Definition convert_group (node : TokenNode) : M World (list nat) :=
  convert_group_of convert_statement (node_elements node) (node_repeat node).

Definition convert_element (node : TokenNode) : M World (list nat) :=
  match node with
  | TokenElement name value attributes elements repeat self_close =>
      convert_element_of convert_statement name value attributes elements repeat self_close
  | TokenGroup elements repeat =>
      (* a group has no name, value or attributes for [convert_element] to read *)
      raise AttributeError
  end.

(** [tx = '\n'.join(text) if isinstance(text, list) else text or ''] *)
Definition full_text (text : Text) : string :=
  match text with
  | TextList lines => join newline lines
  | TextStr s => s
  | TextNone => EmptyString
  end.

Definition is_not_none (text : Text) : bool :=
  match text with TextNone => false | _ => true end.

Definition convert (abbr : TokenNode) (options : Options) : Res World Abbreviation :=
  let text := opt_text options in
  let state := initial_state options in
  (do children <- convert_group abbr;
   do w <- get;
   do _ <- (if is_not_none text && negb (_text_inserted (w_state w)) then
          match last children with
          | None => raise IndexError                (* result.children[-1] *)
          | Some target =>
              do deepest <- deepest_node target;
              insert_text deepest (full_text text)
          end
        else ret tt);
   ret (mkAbbreviation children)) (mkWorld state []).

End Converter.

(** ** Shape of the output *)

(** [c] is in the children list of the node at [p]. *)
Definition parent_of (store : Store) (p c : nat) : Prop :=
  c ∈ n_children (store !!! p).

(** Every child is in the store and was created after its parent. *)
Definition well_formed (store : Store) : Prop :=
  forall p c, parent_of store p c -> (p < c < length store)%nat.

(** [d] is the node without children that following the last child from
    [node] arrives at. *)
Inductive deepest_leaf (store : Store) : nat -> nat -> Prop :=
| deepest_here node :
    n_children (store !!! node) = [] -> deepest_leaf store node node
| deepest_below node child d :
    last (n_children (store !!! node)) = Some child ->
    deepest_leaf store child d -> deepest_leaf store node d.

(** Who holds a node in a children list: the root or another node. *)
Inductive Owner :=
| Root
| Node (p : nat).

Definition child_of (result : Abbreviation) (store : Store) (o : Owner) (c : nat) : Prop :=
  match o with
  | Root => c ∈ abbr_children result
  | Node p => parent_of store p c
  end.

(** The owner is a text-only snippet, the kind of node whose children
    [convert_element] also returns as siblings. *)
Definition is_snippet (store : Store) (o : Owner) : Prop :=
  match o with
  | Root => False
  | Node p => text_only (store !!! p) = true
  end.

(** No node is held by two owners. *)
Definition exclusively_owned (result : Abbreviation) (store : Store) : Prop :=
  forall c o1 o2, child_of result store o1 c -> child_of result store o2 c -> o1 = o2.

(** [p] holds [c] and is no text-only snippet. *)
Definition solid_parent (store : Store) (p c : nat) : Prop :=
  parent_of store p c /\ text_only (store !!! p) = false.

(** No node has two parents that are not snippets. *)
Definition owned (store : Store) : Prop :=
  forall c p1 p2, solid_parent store p1 c -> solid_parent store p2 c -> p1 = p2.

(** What a call of the converter that returns [ids] does to the store: the
    nodes that were there are left as they were, the returned nodes are new,
    the store stays well formed and owned, and the returned nodes have no
    parent yet but snippets. *)
Record store_step (st0 st1 : Store) (ids : list nat) : Prop := mkStoreStep {
  ss_length : (length st0 <= length st1)%nat;
  ss_frame : forall a, (a < length st0)%nat -> st1 !! a = st0 !! a;
  ss_range : forall id, id ∈ ids -> (length st0 <= id < length st1)%nat;
  ss_wf : well_formed st1;
  ss_owned : owned st1;
  ss_loose : forall c p, c ∈ ids -> ~ solid_parent st1 p c
}.

Definition store_safe (m : M World (list nat)) : Prop :=
  forall w ids w',
    well_formed (w_store w) -> owned (w_store w) ->
    m w = Ok ids w' -> store_step (w_store w) (w_store w') ids.

(** The store while [convert_element] collects the children of the node
    [elem] it has created on the store [st0]: the older nodes are as they
    were, and what [elem] holds so far has no other parent but snippets. *)
Record collecting (st0 st : Store) (elem : nat) : Prop := mkCollecting {
  co_elem : elem = length st0;
  co_length : (length st0 < length st)%nat;
  co_frame : forall a, (a < length st0)%nat -> st !! a = st0 !! a;
  co_wf : well_formed st;
  co_owned : owned st;
  co_kids : forall c p, c ∈ n_children (st !!! elem) -> p <> elem -> ~ solid_parent st p c
}.

(** The test [text_only] in words: no name, no attributes, a value, and no
    field in the value. *)
Definition flattening_applies (e : AbbreviationNode) : Prop :=
  (n_name e = None \/ n_name e = Some EmptyString) /\
  (n_attributes e = None \/ n_attributes e = Some []) /\
  exists v, n_value e = Some v /\ v <> [] /\ Forall (fun seg => is_field_seg seg = false) v.

(** ** What a renderer may do to the conversion state *)

Definition guard_le (after before : option Z) : Prop :=
  match after, before with
  | Some a, Some b => a <= b
  | None, None => True
  | _, _ => False
  end.

(** The text, the variables and the repeater stack are as before, the guard
    has not grown and no flag was reset. *)
Record evolves (s0 s1 : ConvertState) : Prop := mkEvolves {
  ev_text : text s1 = text s0;
  ev_variables : variables s1 = variables s0;
  ev_repeaters : repeaters s1 = repeaters s0;
  ev_guard : guard_le (repeat_guard s1) (repeat_guard s0);
  ev_inserted : inserted s0 = true -> inserted s1 = true;
  ev_text_inserted : _text_inserted s0 = true -> _text_inserted s1 = true
}.

(** A renderer that reads the state and at most sets the two flags. *)
Definition flags_only (stringify : Token -> ConvertState -> string * ConvertState) : Prop :=
  forall token s,
    let s' := (stringify token s).2 in
    text s' = text s /\ variables s' = variables s /\ repeaters s' = repeaters s /\
    repeat_guard s' = repeat_guard s /\
    (inserted s = true -> inserted s' = true) /\
    (_text_inserted s = true -> _text_inserted s' = true).

(** A computation on the conversion state, or on the world, that only lets
    the state evolve. *)
Definition state_evolves {A} (m : M ConvertState A) : Prop :=
  forall s a s', m s = Ok a s' -> evolves s s'.

Definition world_evolves {A} (m : M World A) : Prop :=
  forall w a w', m w = Ok a w' -> evolves (w_state w) (w_state w').

(** The state inside the loop of a repeated statement that was entered in
    state [s0]: as [evolves], with one more repeater on the stack. *)
Record in_loop (s0 s : ConvertState) : Prop := mkInLoop {
  il_text : text s = text s0;
  il_variables : variables s = variables s0;
  il_repeaters : exists top, repeaters s = repeaters s0 ++ [top];
  il_guard : guard_le (repeat_guard s) (repeat_guard s0);
  il_inserted : inserted s0 = true -> inserted s = true;
  il_text_inserted : _text_inserted s0 = true -> _text_inserted s = true
}.

(** A computation on the state that always returns and leaves the guard
    and the repeater stack as they were. *)
Definition renders {A} (m : M ConvertState A) : Prop :=
  forall s, exists a s',
    m s = Ok a s' /\ repeat_guard s' = repeat_guard s /\ repeaters s' = repeaters s.

(** ** Sample inputs *)

(** The implicit repeater closest to the top of the stack. *)
Definition closest_implicit (stack : list Repeater) : option Repeater :=
  last (filter (fun r => rep_implicit r = true) stack).

(** A renderer for the examples: a literal renders as its text, a field
    without index as the variable of its name, and the repeater placeholder
    takes the text of the current implicit repeater and records that. *)
Definition sample_stringify (token : Token) (s : ConvertState) : string * ConvertState :=
  match token with
  | Literal value => (value, s)
  | Field (Some _) name => ("${" +:+ name +:+ "}", s)
  | Field None name =>
      (default name (default ∅ (variables s) !! name), s)
  | RepeaterPlaceholder =>
      match get_text (rep_value <$> closest_implicit (repeaters s)) (set_inserted true s) with
      | Ok v s' => (v, s')
      | Raise _ => (EmptyString, set_inserted true s)
      end
  | Quote single => (if single then "'" else String (ascii_of_nat 34) EmptyString, s)
  | Bracket open _ => (if open then "{" else "}", s)
  | RepeaterNumber _ => ("$", s)
  | Operator operator => (operator, s)
  | WhiteSpace => (" ", s)
  end.

(** [name] and [name*count]; [name*] is the implicit repeater. *)
Definition tag (name : string) : TokenNode :=
  TokenElement (Some [Literal name]) None None [] None false.

Definition tag_times (name : string) (count : Z) : TokenNode :=
  TokenElement (Some [Literal name]) None None [] (Some (mkRepeater (Some count) 0 false)) false.


(** [{text}>child1+child2...]: a text snippet with children. *)
Definition snippet (value : string) (children : list TokenNode) : TokenNode :=
  TokenElement None (Some [Literal value]) None children None false.

Definition options_of (text : Text) (max_repeat : option Z) : Options :=
  mkOptions text (Some ∅) max_repeat.

(** The world [convert] starts from: the initial state and an empty store. *)
Definition start (text : Text) (max_repeat : option Z) : World :=
  mkWorld (initial_state (options_of text max_repeat)) [].


(** [div>{txt}>li] *)
Definition div_snippet_li : TokenNode :=
  TokenGroup
    [TokenElement (Some [Literal "div"]) None None [snippet "txt" [tag "li"]] None false]
    None.



(** ** Reading a value list *)

(** The field tokens of a value list, its text (the string elements put
    together), and whether no two strings stand next to each other. *)
Fixpoint seg_fields (v : list Segment) : list Token :=
  match v with
  | [] => []
  | SegField token :: rest => token :: seg_fields rest
  | SegStr _ :: rest => seg_fields rest
  end.

Fixpoint seg_text (v : list Segment) : string :=
  match v with
  | [] => EmptyString
  | SegStr str :: rest => str +:+ seg_text rest
  | SegField _ :: rest => seg_text rest
  end.

Fixpoint alternates (v : list Segment) : bool :=
  match v with
  | [] => true
  | SegStr _ :: rest =>
      match rest with
      | SegStr _ :: _ => false
      | _ => alternates rest
      end
  | SegField _ :: rest => alternates rest
  end.

(** The tokens [stringify_value] renders: those that are no fields. *)
Definition non_fields (tokens : list Token) : list Token :=
  List.filter (fun token => negb (is_field token)) tokens.

(** ** The passes of an implicit repeater *)






(** ** The node of a pass *)

(** The node a pass of a repeated element without children makes: its
    repeater is the copy made in that pass, and its name and value were
    rendered while the repeater of the pass was on top of the stack. *)
Definition pass_node (stringify : Token -> ConvertState -> string * ConvertState)
    (name value : option (list Token)) (sc : bool) (current : Repeater)
    (n : AbbreviationNode) : Prop :=
  n_repeat n = Some current /\ n_children n = [] /\ n_attributes n = None /\
  n_self_closing n = sc /\
  exists s s1 s2,
    last (repeaters s) = Some current /\
    name_or_none stringify name s = Ok (n_name n) s1 /\
    value_or_none stringify value s1 = Ok (n_value n) s2.

(** ** More sample inputs *)

(** The attribute [!checked.], implied and boolean. *)
Definition checked_attribute : TokenAttribute :=
  mkTokenAttribute (Some [Literal "!checked."]) None false.

(** [a[href=x]] *)
Definition a_href : TokenNode :=
  TokenElement (Some [Literal "a"]) None
    (Some [mkTokenAttribute (Some [Literal "href"]) (Some [Literal "x"]) false])
    [] None false.

(** A store of two nodes, [ul] holding [li]. *)
Definition ul_li : Store :=
  [mkNode (Some "ul") None None None [1%nat] false;
   mkNode (Some "li") None None None [] false].

(** [ul>li+li] *)
Definition ul_li_li : TokenNode :=
  TokenElement (Some [Literal "ul"]) None None [tag "li"; tag "li"] None false.

(** ** The exceptions of a conversion *)

(** What a conversion that starts in state [s] may raise: IndexError, or
    TypeError when the state has no repeat guard to count down. *)
Definition expected (e : Exn) (s : ConvertState) : Prop :=
  e = IndexError \/ (e = TypeError /\ repeat_guard s = None).

Definition raises_expected {A} (m : M World A) : Prop :=
  forall w e,
    well_formed (w_store w) -> owned (w_store w) ->
    m w = Raise e -> expected e (w_state w).

(** * Properties *)

(** ** Reasoning about computations *)

Lemma bind_ok {S A B} (m : M S A) (k : A -> M S B) s a s' :
  m s = Ok a s' -> bind m k s = k a s'.
Proof. intros H. unfold bind. by rewrite H. Qed.

Lemma bind_inv {S A B} (m : M S A) (k : A -> M S B) s b s'' :
  bind m k s = Ok b s'' -> exists a s', m s = Ok a s' /\ k a s' = Ok b s''.
Proof.
  unfold bind. destruct (m s) as [a s'|e]; [|done]. intros H. by exists a, s'.
Qed.

(** ** The value stringifier *)

Section ValueStringifier.

Variable stringify : Token -> ConvertState -> string * ConvertState.






End ValueStringifier.

(** ** The attribute normalizer *)

Section AttributeNormalizer.

Variable stringify : Token -> ConvertState -> string * ConvertState.

Lemma pop_last_if_snoc pred (tokens : list Token) t :
  pred t = true -> pop_last_if pred (tokens ++ [t]) = tokens.
Proof.
  intros H. unfold pop_last_if. by rewrite last_snoc, H, removelast_last.
Qed.

Lemma quote_type_eqb t single :
  String.eqb (token_type t) (token_type (Quote single)) = is_quote t.
Proof. by destruct t. Qed.

(** C9, as the code has it.  When the value of an attribute starts with a
    quote token, the leading quote is removed; a last token that is a quote
    is removed too, whatever its kind, since the code compares the type tag
    of the two tokens, and a last token that is no quote is kept, so that
    an unclosed value keeps all that follows the quote.  The value type is
    singleQuote or doubleQuote after the kind of the leading quote; a
    double-quoted literal gives the value list of that one rendered
    literal.  A value that is only a quote, or only an opening expression
    bracket, gives the empty value list: the value adds no error to what
    the name of the attribute does. *)
Theorem convert_attribute_quoted :
  (forall name single other body expr s,
     convert_attribute stringify
       (mkTokenAttribute name (Some (Quote single :: body ++ [Quote other])) expr) s =
     (do attr <- AbbreviationAttribute_init stringify (mkTokenAttribute name None expr);
      do v <- stringify_value stringify body;
      ret (mkAttribute (attr_name attr) (Some v)
             (if single then singleQuote else doubleQuote)
             (attr_boolean attr) (attr_implied attr))) s) /\
  (forall name single body last_token expr s,
     is_quote last_token = false ->
     convert_attribute stringify
       (mkTokenAttribute name (Some (Quote single :: body ++ [last_token])) expr) s =
     (do attr <- AbbreviationAttribute_init stringify (mkTokenAttribute name None expr);
      do v <- stringify_value stringify (body ++ [last_token]);
      ret (mkAttribute (attr_name attr) (Some v)
             (if single then singleQuote else doubleQuote)
             (attr_boolean attr) (attr_implied attr))) s) /\
  (forall value expr s,
     convert_attribute stringify
       (mkTokenAttribute None (Some [Quote false; Literal value; Quote false]) expr) s =
     Ok (mkAttribute None (Some [SegStr (stringify (Literal value) s).1]) doubleQuote false false)
        (stringify (Literal value) s).2) /\
  (forall name single expr s,
     convert_attribute stringify (mkTokenAttribute name (Some [Quote single]) expr) s =
     (do attr <- AbbreviationAttribute_init stringify (mkTokenAttribute name None expr);
      ret (mkAttribute (attr_name attr) (Some [])
             (if single then singleQuote else doubleQuote)
             (attr_boolean attr) (attr_implied attr))) s) /\
  (forall name expr s,
     convert_attribute stringify
       (mkTokenAttribute name (Some [Bracket true BExpression]) expr) s =
     (do attr <- AbbreviationAttribute_init stringify (mkTokenAttribute name None expr);
      ret (mkAttribute (attr_name attr) (Some []) expression
             (attr_boolean attr) (attr_implied attr))) s) /\
  (forall single expr s,
     convert_attribute stringify (mkTokenAttribute None (Some [Quote single]) expr) s =
     Ok (mkAttribute None (Some []) (if single then singleQuote else doubleQuote) false false) s).
Proof.
  split; [|split; [|split; [|split; [|split]]]].
  - intros name single other body expr s. unfold convert_attribute. simpl.
    rewrite pop_last_if_snoc by done.
    unfold AbbreviationAttribute_init, bind. simpl.
    by destruct (name_or_none stringify name s) as [[[|c nm]|] s1|e].
  - intros name single body last_token expr s Hq. unfold convert_attribute. simpl.
    unfold pop_last_if. rewrite last_snoc.
    change (token_type last_token =? "Quote")%string
      with (String.eqb (token_type last_token) (token_type (Quote single))).
    rewrite quote_type_eqb, Hq.
    unfold AbbreviationAttribute_init, bind. simpl.
    by destruct (name_or_none stringify name s) as [[[|c nm]|] s1|e].
  - intros value expr s. unfold convert_attribute, AbbreviationAttribute_init, bind. simpl.
    change [Literal value; Quote false] with ([Literal value] ++ [Quote false]).
    rewrite pop_last_if_snoc by done.
    unfold stringify_value. simpl. unfold bind, render.
    by destruct (stringify (Literal value) s).
  - intros name single expr s. unfold convert_attribute, AbbreviationAttribute_init, bind. simpl.
    by destruct (name_or_none stringify name s) as [[[|c nm]|] s1|e].
  - intros name expr s. unfold convert_attribute, AbbreviationAttribute_init, bind. simpl.
    by destruct (name_or_none stringify name s) as [[[|c nm]|] s1|e].
  - intros single expr s. done.
Qed.

End AttributeNormalizer.

(** The value [foo] with a double quote in front and a single quote at
    the end: the single quote is taken off although it is of the other
    kind; kept, it would be rendered into the value. *)
Lemma trailing_quote_of_other_kind :
  convert_attribute sample_stringify
    (mkTokenAttribute None (Some [Quote false; Literal "foo"; Quote true]) false)
    (initial_state (options_of TextNone None))
  = Ok (mkAttribute None (Some [SegStr "foo"]) doubleQuote false false)
      (initial_state (options_of TextNone None)) /\
  quote_single (Quote true) <> quote_single (Quote false) /\
  stringify_value sample_stringify [Literal "foo"; Quote true]
    (initial_state (options_of TextNone None))
  = Ok [SegStr "foo'"] (initial_state (options_of TextNone None)).
Proof. split; [done|]. split; done. Qed.

(** The unclosed value, a double quote and [foo]: the literal is kept. *)
Lemma convert_attribute_quoted_witness :
  convert_attribute sample_stringify
    (mkTokenAttribute None (Some (Quote false :: [] ++ [Literal "foo"])) false)
    (initial_state (options_of TextNone None))
  = Ok (mkAttribute None (Some [SegStr "foo"]) doubleQuote false false)
      (initial_state (options_of TextNone None)).
Proof.
  destruct (convert_attribute_quoted sample_stringify) as (_ & H & _).
  rewrite (H None false [] (Literal "foo") false _ eq_refl). reflexivity.
Defined.

(** A value that opens with a double quote and ends with a single one:
    [tokens[-1].type == quote.type] compares the class of the tokens, so the
    closing quote is taken off all the same. *)
Example convert_attribute_mixed_quotes s :
  convert_attribute sample_stringify
    (mkTokenAttribute None (Some [Quote false; Literal "foo"; Quote true]) false) s =
  Ok (mkAttribute None (Some [SegStr "foo"]) doubleQuote false false) s.
Proof. done. Qed.

(** A double-quoted [foo] and a single-quoted [foo], rendered by the sample renderer. *)
Example convert_attribute_foo s :
  convert_attribute sample_stringify
    (mkTokenAttribute (Some [Literal "title"])
       (Some [Quote false; Literal "foo"; Quote false]) false) s =
  Ok (mkAttribute (Some "title") (Some [SegStr "foo"]) doubleQuote false false) s /\
  convert_attribute sample_stringify
    (mkTokenAttribute (Some [Literal "title"])
       (Some [Quote true; Literal "foo"; Quote true]) false) s =
  Ok (mkAttribute (Some "title") (Some [SegStr "foo"]) singleQuote false false) s.
Proof. done. Qed.

(** ** The entry point without [max_repeat] *)

(** C4.  When the options hold no [max_repeat], [convert] passes the missing
    entry on to the state as None, so the repeat guard starts as None and not
    as the 1,000,000 the state would take by itself; the first repeated
    statement then fails at the decrement of the guard. *)
Theorem convert_without_max_repeat :
  (forall text variables,
     repeat_guard (initial_state (mkOptions text variables None)) = None /\
     repeat_guard (initial_state (mkOptions text variables None)) <> Some default_max_repeat) /\
  convert sample_stringify (TokenGroup [tag_times "li" 2] None) (options_of TextNone None)
  = Raise TypeError.
Proof. split; [|done]. intros; split; done. Qed.

(** ** Steps of a computation *)

Lemma ret_inv {S A} (a b : A) (s s' : S) : ret a s = Ok b s' -> a = b /\ s = s'.
Proof. unfold ret. intros H. by simplify_eq. Qed.

Lemma on_state_inv {A} (m : M ConvertState A) w a w' :
  on_state m w = Ok a w' ->
  exists s', m (w_state w) = Ok a s' /\ w' = mkWorld s' (w_store w).
Proof.
  unfold on_state. destruct (m (w_state w)) as [a' s'|e]; [|done].
  intros H. simplify_eq. by exists s'.
Qed.

Lemma on_state_store {A} (m : M ConvertState A) w a w' :
  on_state m w = Ok a w' -> w_store w' = w_store w.
Proof. intros (s' & _ & ->)%on_state_inv. done. Qed.

Lemma alloc_inv n w id w' :
  alloc n w = Ok id w' ->
  id = length (w_store w) /\ w' = mkWorld (w_state w) (w_store w ++ [n]).
Proof. unfold alloc. intros H. by simplify_eq. Qed.

Lemma update_node_inv f id w u w' :
  update_node f id w = Ok u w' -> w' = mkWorld (w_state w) (alter f id (w_store w)).
Proof. unfold update_node, modify. intros H. by simplify_eq. Qed.

Lemma read_node_inv id w n w' :
  read_node id w = Ok n w' -> n = w_store w !!! id /\ w' = w.
Proof. unfold read_node. intros H. by simplify_eq. Qed.

Lemma get_inv {S} (s a s' : S) : get s = Ok a s' -> a = s /\ s' = s.
Proof. unfold get. intros H. by simplify_eq. Qed.

(** Takes the first step off a computation that is known to have returned. *)
Ltac mstep_fresh H :=
  let a := fresh "a" in
  let w := fresh "w" in
  let H1 := fresh "H" in
  apply bind_inv in H as (a & w & H1 & H).

Tactic Notation "mstep" hyp(H) := mstep_fresh H.

Tactic Notation "mstep" hyp(H) "as" ident(a) ident(w) ident(H1) :=
  apply bind_inv in H as (a & w & H1 & H).

(** ** The store: well-formedness and ownership *)

Lemma lookup_total_eq (st1 st2 : Store) a :
  st2 !! a = st1 !! a -> st2 !!! a = st1 !!! a.
Proof. intros H. by rewrite !list_lookup_total_alt, H. Qed.

Lemma parent_of_in_store st p c : parent_of st p c -> (p < length st)%nat.
Proof.
  unfold parent_of. intros H.
  destruct (decide (p < length st)%nat) as [|Hge]; [done|].
  rewrite list_lookup_total_alt, (lookup_ge_None_2 st p) in H by lia.
  simpl in H. by apply elem_of_nil in H.
Qed.

Lemma store_step_refl st : well_formed st -> owned st -> store_step st st [].
Proof.
  intros Hwf Hown. split; try done.
  - intros id Hid. by apply elem_of_nil in Hid.
  - intros c p Hc. by apply elem_of_nil in Hc.
Qed.

Lemma store_step_trans st0 st1 st2 ids1 ids2 :
  store_step st0 st1 ids1 -> store_step st1 st2 ids2 ->
  store_step st0 st2 (ids1 ++ ids2).
Proof.
  intros [L1 F1 R1 W1 O1 Lo1] [L2 F2 R2 W2 O2 Lo2]. split.
  - lia.
  - intros a Ha. rewrite F2 by lia. by apply F1.
  - intros id [Hid|Hid]%elem_of_app.
    + apply R1 in Hid. lia.
    + apply R2 in Hid. lia.
  - done.
  - done.
  - intros c p [Hc|Hc]%elem_of_app [Hp Hs]; [|by eapply Lo2].
    apply (Lo1 c p Hc). apply R1 in Hc.
    pose proof (W2 p c Hp) as Hpc.
    assert (st2 !!! p = st1 !!! p) as E by (apply lookup_total_eq, F2; lia).
    split; [unfold parent_of|]; by rewrite <- E.
Qed.

(** In-place changes that leave the children and, on nodes with children,
    the snippet test as they were. *)
Lemma parent_of_alter f d st p c :
  (forall n, n_children (f n) = n_children n) ->
  parent_of (alter f d st) p c <-> parent_of st p c.
Proof.
  intros Hf. unfold parent_of. rewrite list_lookup_total_alter.
  case_decide as Hd; [|done]. destruct Hd as [-> _]. by rewrite Hf.
Qed.

Lemma solid_parent_alter f d st p c :
  (forall n, n_children (f n) = n_children n) ->
  (n_children (st !!! d) <> [] -> text_only (f (st !!! d)) = text_only (st !!! d)) ->
  solid_parent (alter f d st) p c <-> solid_parent st p c.
Proof.
  intros Hf Ht. unfold solid_parent. rewrite parent_of_alter by done.
  assert (parent_of st p c -> text_only (alter f d st !!! p) = text_only (st !!! p)) as E.
  { intros Hp. rewrite list_lookup_total_alter. case_decide as Hd; [|done].
    destruct Hd as [-> _]. apply Ht. intros E. unfold parent_of in Hp.
    rewrite E in Hp. by apply elem_of_nil in Hp. }
  split; intros [Hp Hs]; (split; [done|]); by rewrite ?E in *.
Qed.

Lemma well_formed_alter f d st :
  (forall n, n_children (f n) = n_children n) ->
  well_formed st -> well_formed (alter f d st).
Proof.
  intros Hf Hwf p c Hp. rewrite length_alter. apply Hwf.
  by eapply parent_of_alter.
Qed.

Lemma store_step_alter f d st0 st1 ids :
  (forall n, n_children (f n) = n_children n) ->
  (n_children (st1 !!! d) <> [] -> text_only (f (st1 !!! d)) = text_only (st1 !!! d)) ->
  (length st0 <= d)%nat ->
  store_step st0 st1 ids -> store_step st0 (alter f d st1) ids.
Proof.
  intros Hf Ht Hd [L F R W O Lo]. split.
  - by rewrite length_alter.
  - intros a Ha. rewrite list_lookup_alter_ne by lia. by apply F.
  - intros id Hid. rewrite length_alter. by apply R.
  - by apply well_formed_alter.
  - intros c p1 p2 H1 H2. apply (O c); by eapply solid_parent_alter.
  - intros c p Hc Hs. apply (Lo c p Hc). by eapply solid_parent_alter.
Qed.

(** *** The deepest node *)

Lemma deepest_node_fuel_leaf st fuel : forall node d,
  deepest_node_fuel fuel st node = Some d -> deepest_leaf st node d.
Proof.
  induction fuel as [|fuel IH]; intros node d H; simpl in H; [done|].
  destruct (last (n_children (st !!! node))) as [child|] eqn:E.
  - eapply deepest_below; eauto.
  - simplify_eq. apply deepest_here. by apply last_None.
Qed.

Lemma deepest_leaf_unique st node d1 d2 :
  deepest_leaf st node d1 -> deepest_leaf st node d2 -> d1 = d2.
Proof.
  intros H1. revert d2. induction H1 as [node Hn|node child d Hc _ IH]; intros d2 H2.
  - destruct H2 as [|node child d Hc]; [done|]. by rewrite Hn in Hc.
  - destruct H2 as [node Hn|node child' d' Hc' H2].
    + by rewrite Hn in Hc.
    + apply IH. by simplify_eq.
Qed.

Lemma deepest_leaf_below st node d :
  well_formed st -> deepest_leaf st node d ->
  (node <= d)%nat /\ n_children (st !!! d) = [] /\ ((node < length st)%nat -> (d < length st)%nat).
Proof.
  intros Hwf. induction 1 as [node Hn|node child d Hc _ IH]; [done|].
  apply last_Some_elem_of in Hc. apply Hwf in Hc. destruct IH as (? & ? & ?).
  repeat split; [lia|done|lia].
Qed.

(** On a well-formed store the fuel [deepest_node] starts with is enough. *)
Lemma deepest_node_fuel_enough st : well_formed st -> forall fuel node,
  (node < length st)%nat -> (length st - node <= fuel)%nat ->
  exists d, deepest_node_fuel fuel st node = Some d.
Proof.
  intros Hwf. induction fuel as [|fuel IH]; intros node Hn Hf; [lia|]. simpl.
  destruct (last (n_children (st !!! node))) as [child|] eqn:E; [|by eexists].
  apply last_Some_elem_of in E. apply Hwf in E. apply IH; lia.
Qed.

Lemma deepest_node_inv node w d w' :
  deepest_node node w = Ok d w' -> w' = w /\ deepest_leaf (w_store w) node d.
Proof.
  unfold deepest_node.
  destruct (deepest_node_fuel _ _ _) as [d'|] eqn:E; [|done].
  intros H. simplify_eq. split; [done|]. by eapply deepest_node_fuel_leaf.
Qed.

Lemma deepest_node_total node w :
  well_formed (w_store w) -> (node < length (w_store w))%nat ->
  exists d, deepest_node node w = Ok d w /\ deepest_leaf (w_store w) node d.
Proof.
  intros Hwf Hn.
  destruct (deepest_node_fuel_enough _ Hwf (length (w_store w)) node) as [d Hd]; [done|lia|].
  exists d. unfold deepest_node. rewrite Hd. split; [done|]. by eapply deepest_node_fuel_leaf.
Qed.

(** *** In-place changes of returned nodes *)

Lemma insert_text_node_children tx n :
  n_children (insert_text_node tx n) = n_children n.
Proof.
  unfold insert_text_node. destruct (n_value n) as [[|seg segs]|]; [done| |done].
  destruct (last (seg :: segs)) as [[?|?]|]; done.
Qed.

Lemma attach_one_children r n : n_children (attach_one r n) = n_children n.
Proof. unfold attach_one. by destruct (n_repeat n). Qed.

Lemma attach_one_text_only r n : text_only (attach_one r n) = text_only n.
Proof. unfold attach_one. by destruct (n_repeat n). Qed.

Lemma attach_loop_safe repeater st0 ids items : forall w u w',
  (forall id, id ∈ items -> (length st0 <= id)%nat) ->
  store_step st0 (w_store w) ids ->
  attach_loop items repeater w = Ok u w' ->
  store_step st0 (w_store w') ids.
Proof.
  induction items as [|item rest IH]; intros w u w' Hr Hs H; simpl in H.
  - apply ret_inv in H as [_ <-]. done.
  - mstep H. apply update_node_inv in H0 as ->.
    eapply IH; [| |exact H].
    + intros id Hid. apply Hr. by right.
    + simpl. apply store_step_alter; try done.
      * apply attach_one_children.
      * intros _. apply attach_one_text_only.
      * apply Hr. by left.
Qed.

Lemma attach_repeater_safe repeater st0 items w ids w' :
  store_step st0 (w_store w) items ->
  attach_repeater items repeater w = Ok ids w' ->
  store_step st0 (w_store w') ids.
Proof.
  intros Hs H. unfold attach_repeater in H. mstep H. apply ret_inv in H as [<- <-].
  eapply attach_loop_safe; [|done|done].
  intros id Hid. by apply (ss_range _ _ _ Hs).
Qed.

(** *** Groups and elements, given that the statements inside are safe *)

Section StoreInvariant.

Variable stringify : Token -> ConvertState -> string * ConvertState.
Variable rec : TokenNode -> M World (list nat).

Lemma convert_statements_safe elements :
  Forall (fun child => store_safe (rec child)) elements ->
  forall result st0 w ids w',
    store_step st0 (w_store w) result ->
    convert_statements rec elements result w = Ok ids w' ->
    store_step st0 (w_store w') ids.
Proof.
  induction 1 as [|child rest Hc _ IH]; intros result st0 w ids w' Hs H; simpl in H.
  - by apply ret_inv in H as [<- <-].
  - mstep H. eapply IH; [|exact H].
    eapply store_step_trans; [exact Hs|].
    eapply Hc; [apply Hs|apply Hs|done].
Qed.

Lemma convert_group_of_safe elements repeat :
  Forall (fun child => store_safe (rec child)) elements ->
  store_safe (convert_group_of rec elements repeat).
Proof.
  intros Hel w ids w' Hwf Hown H. unfold convert_group_of in H. mstep H.
  pose proof (convert_statements_safe _ Hel _ _ _ _ _ (store_step_refl _ Hwf Hown) H0) as Hs.
  destruct repeat as [repeater|].
  - by eapply attach_repeater_safe.
  - by apply ret_inv in H as [<- <-].
Qed.

Lemma collecting_start st0 n :
  well_formed st0 -> owned st0 -> n_children n = [] ->
  collecting st0 (st0 ++ [n]) (length st0).
Proof.
  intros Hwf Hown Hn.
  assert (forall p c, parent_of (st0 ++ [n]) p c -> parent_of st0 p c /\ (p < length st0)%nat) as Hp.
  { intros p c H. pose proof (parent_of_in_store _ _ _ H) as Hlt.
    rewrite length_app in Hlt. simpl in Hlt.
    destruct (decide (p = length st0)) as [->|Hne].
    - unfold parent_of in H. rewrite list_lookup_total_middle, Hn in H by done.
      by apply elem_of_nil in H.
    - split; [|lia]. unfold parent_of in *. by rewrite lookup_total_app_l in H by lia. }
  split.
  - done.
  - rewrite length_app. simpl. lia.
  - intros a Ha. by rewrite lookup_app_l.
  - intros p c H. apply Hp in H as [H _]. apply Hwf in H. rewrite length_app. lia.
  - intros c p1 p2 [H1 S1] [H2 S2]. apply Hp in H1 as [H1 L1]. apply Hp in H2 as [H2 L2].
    rewrite lookup_total_app_l in S1, S2 by done. by apply (Hown c).
  - intros c p. rewrite list_lookup_total_middle, Hn by done. intros H. by apply elem_of_nil in H.
Qed.

(** A change of [elem] itself that keeps its children. *)
Lemma collecting_alter f st0 st elem :
  (forall n, n_children (f n) = n_children n) ->
  collecting st0 st elem -> collecting st0 (alter f elem st) elem.
Proof.
  intros Hf [-> L F W O K].
  assert (forall p c, p <> length st0 ->
            solid_parent (alter f (length st0) st) p c <-> solid_parent st p c) as Hs.
  { intros p c Hp. unfold solid_parent. rewrite parent_of_alter by done.
    by rewrite list_lookup_total_alter_ne. }
  assert (forall c, c ∈ n_children (alter f (length st0) st !!! length st0) <->
                    c ∈ n_children (st !!! length st0)) as Hk.
  { intros c. by rewrite list_lookup_total_alter_eq, Hf. }
  split.
  - done.
  - by rewrite length_alter.
  - intros a Ha. rewrite list_lookup_alter_ne by lia. by apply F.
  - by apply well_formed_alter.
  - intros c p1 p2 H1 H2.
    destruct (decide (p1 = length st0)) as [->|N1], (decide (p2 = length st0)) as [->|N2]; [done| | |].
    + exfalso. apply (K c p2); [|done|by apply Hs]. destruct H1 as [H1 _].
      by apply parent_of_alter in H1.
    + exfalso. apply (K c p1); [|done|by apply Hs]. destruct H2 as [H2 _].
      by apply parent_of_alter in H2.
    + apply (O c); by apply Hs.
  - intros c p Hc Hp Hsol. apply (K c p); [by apply Hk|done|by apply Hs].
Qed.

(** [elem.children += items] for the items of a safe call. *)
Lemma collecting_add st0 st st' elem items :
  collecting st0 st elem -> store_step st st' items ->
  collecting st0 (alter (add_children items) elem st') elem.
Proof.
  intros [-> L F W O K] [L' F' R' W' O' Lo'].
  set (e := length st0) in *.
  assert (st' !!! e = st !!! e) as Ee by (apply lookup_total_eq, F'; lia).
  assert (forall c, parent_of (alter (add_children items) e st') e c <->
                    c ∈ n_children (st !!! e) \/ c ∈ items) as He.
  { intros c. unfold parent_of. rewrite list_lookup_total_alter_eq by lia.
    simpl. by rewrite elem_of_app, Ee. }
  assert (forall p c, p <> e ->
            parent_of (alter (add_children items) e st') p c <-> parent_of st' p c) as Hp.
  { intros p c Hne. unfold parent_of. by rewrite list_lookup_total_alter_ne. }
  assert (forall p c, p <> e ->
            solid_parent (alter (add_children items) e st') p c <-> solid_parent st' p c) as Hs.
  { intros p c Hne. unfold solid_parent. by rewrite Hp, list_lookup_total_alter_ne. }
  assert (forall c p, c ∈ n_children (st !!! e) \/ c ∈ items -> p <> e ->
            ~ solid_parent st' p c) as Hk.
  { intros c p [Hc|Hc] Hne Hsol; [|by eapply Lo'].
    apply (K c p Hc Hne). apply W in Hc. destruct Hsol as [Hpar Hso].
    pose proof (W' _ _ Hpar).
    assert (st' !!! p = st !!! p) as Ep by (apply lookup_total_eq, F'; lia).
    split; [unfold parent_of|]; by rewrite <- Ep. }
  split.
  - done.
  - rewrite length_alter. lia.
  - intros a Ha. rewrite list_lookup_alter_ne by lia. rewrite F' by lia. by apply F.
  - intros p c H. rewrite length_alter.
    destruct (decide (p = e)) as [->|Hne].
    + apply He in H as [H|H].
      * apply W in H. lia.
      * apply R' in H. lia.
    + apply W'. by apply Hp.
  - intros c p1 p2 H1 H2.
    destruct (decide (p1 = e)) as [->|N1], (decide (p2 = e)) as [->|N2]; [done| | |].
    + exfalso. apply (Hk c p2); [|done|by apply Hs]. apply He, H1.
    + exfalso. apply (Hk c p1); [|done|by apply Hs]. apply He, H2.
    + apply (O' c); by apply Hs.
  - intros c p Hc Hne Hsol. apply (Hk c p); [|done|by apply Hs].
    by apply He.
Qed.

Lemma convert_children_safe st0 elem elements :
  Forall (fun child => store_safe (rec child)) elements ->
  forall w u w',
    collecting st0 (w_store w) elem ->
    convert_children rec elem elements w = Ok u w' ->
    collecting st0 (w_store w') elem.
Proof.
  induction 1 as [|child rest Hc _ IH]; intros w u w' Hco H; simpl in H.
  - by apply ret_inv in H as [_ <-].
  - mstep H. mstep H. apply update_node_inv in H1 as ->.
    eapply IH; [|exact H]. simpl.
    eapply collecting_add; [exact Hco|].
    eapply Hc; [apply Hco|apply Hco|done].
Qed.

(** What [convert_element] returns once the children are collected. *)
Lemma collecting_finish st0 st elem :
  well_formed st0 -> collecting st0 st elem ->
  store_step st0 st
    (if text_only (st !!! elem) then [elem] ++ n_children (st !!! elem) else [elem]).
Proof.
  intros Hwf0 [-> L F W O K]. set (e := length st0) in *.
  assert (forall p, ~ parent_of st p e) as Hroot.
  { intros p H. pose proof (W _ _ H) as Hlt.
    assert (st !!! p = st0 !!! p) as Ep by (apply lookup_total_eq, F; lia).
    unfold parent_of in H. rewrite Ep in H. apply Hwf0 in H. unfold e in H. lia. }
  split.
  - lia.
  - done.
  - intros id Hid.
    assert (id = e \/ id ∈ n_children (st !!! e)) as [->|Hc].
    { destruct (text_only (st !!! e)).
      - apply elem_of_app in Hid as [Hid|Hid]; [left|by right]. by apply list_elem_of_singleton in Hid.
      - left. by apply list_elem_of_singleton in Hid. }
    + unfold e. lia.
    + apply W in Hc. unfold e in *. lia.
  - done.
  - done.
  - intros c p Hc [Hpar Hsol].
    destruct (text_only (st !!! e)) eqn:Et.
    + apply elem_of_app in Hc as [Hc|Hc].
      * apply list_elem_of_singleton in Hc as ->. by eapply Hroot.
      * destruct (decide (p = e)) as [->|Hne]; [congruence|].
        by apply (K c p Hc Hne).
    + apply list_elem_of_singleton in Hc as ->. by eapply Hroot.
Qed.

Lemma AbbreviationNode_init_inv name value repeat sc w elem w' :
  AbbreviationNode_init stringify name value repeat sc w = Ok elem w' ->
  exists n, n_children n = [] /\ n_attributes n = None /\
            elem = length (w_store w) /\ w_store w' = w_store w ++ [n].
Proof.
  unfold AbbreviationNode_init. intros H. mstep H. mstep H.
  apply on_state_store in H0, H1. apply alloc_inv in H as [-> ->].
  rewrite H1, H0. by eexists (mkNode _ _ _ _ _ _).
Qed.

Lemma convert_element_of_safe name value attributes elements repeat sc :
  Forall (fun child => store_safe (rec child)) elements ->
  store_safe (convert_element_of stringify rec name value attributes elements repeat sc).
Proof.
  intros Hel w ids w' Hwf Hown H. unfold convert_element_of in H.
  mstep H as elem w1 Hinit. apply AbbreviationNode_init_inv in Hinit as (n & Hn & _ & -> & Est).
  pose proof (collecting_start _ n Hwf Hown Hn) as Hco. rewrite <- Est in Hco.
  mstep H as u2 w2 Hkids. apply (convert_children_safe _ _ _ Hel _ _ _ Hco) in Hkids.
  mstep H as u3 w3 Hattrs.
  assert (collecting (w_store w) (w_store w3) (length (w_store w))) as Hco2.
  { destruct attributes as [[|attr attrs]|].
    - by apply ret_inv in Hattrs as [_ <-].
    - mstep Hattrs as converted w4 Hconv. apply on_state_store in Hconv.
      apply update_node_inv in Hattrs as ->. simpl.
      rewrite Hconv. by apply collecting_alter.
    - by apply ret_inv in Hattrs as [_ <-]. }
  mstep H as e w5 Hread. apply read_node_inv in Hread as [-> ->].
  pose proof (collecting_finish _ _ _ Hwf Hco2) as Hfin.
  destruct (text_only _); by apply ret_inv in H as [<- <-].
Qed.

End StoreInvariant.

(** *** Statements *)

Lemma TokenNode_nested_ind (P : TokenNode -> Prop) :
  (forall elements repeat, Forall P elements -> P (TokenGroup elements repeat)) ->
  (forall name value attributes elements repeat self_close,
     Forall P elements -> P (TokenElement name value attributes elements repeat self_close)) ->
  forall node, P node.
Proof.
  intros Hg He. fix IH 1.
  intros [elements repeat|name value attributes elements repeat self_close].
  - apply Hg. induction elements as [|child rest IHl]; constructor; [apply IH|apply IHl].
  - apply He. induction elements as [|child rest IHl]; constructor; [apply IH|apply IHl].
Qed.

Section Statements.

Variable stringify : Token -> ConvertState -> string * ConvertState.

Lemma convert_statement_eq node :
  convert_statement stringify node =
  match node_repeat node with
  | Some original => unroll_statement (statement_body stringify node) original
  | None => statement_body stringify node None
  end.
Proof. by destruct node. Qed.

Lemma repeat_iteration_safe body repeat i :
  (forall r, store_safe (body r)) -> store_safe (repeat_iteration body repeat i).
Proof.
  intros Hbody w ids w' Hwf Hown H. unfold repeat_iteration in H.
  mstep H as u1 w1 Htop. unfold modify in Htop. simplify_eq.
  mstep H as items w2 Hb. apply Hbody in Hb; [|done..]. simpl in Hb.
  mstep H as w2' w3 Hget. apply get_inv in Hget as [-> ->].
  mstep H as u4 w4 Hins. apply ret_inv in H as [<- <-].
  destruct (rep_implicit _ && negb (inserted (w_state w2))).
  - destruct (last items) as [target|] eqn:El; [|done].
    mstep Hins as d w5 Hd. apply deepest_node_inv in Hd as [-> Hd].
    mstep Hins as tx w6 Htx. apply on_state_inv in Htx as (s6 & _ & ->).
    apply update_node_inv in Hins as ->. simpl.
    destruct (deepest_leaf_below _ _ _ (ss_wf _ _ _ Hb) Hd) as (Hle & Hleaf & _).
    apply store_step_alter; try done.
    + apply insert_text_node_children.
    + apply last_Some_elem_of, (ss_range _ _ _ Hb) in El. lia.
  - by apply ret_inv in Hins as [_ <-].
Qed.

Lemma unroll_safe body repeat :
  (forall r, store_safe (body r)) ->
  forall remaining i result st0 w ids w',
    store_step st0 (w_store w) result ->
    unroll body repeat remaining i result w = Ok ids w' ->
    store_step st0 (w_store w') ids.
Proof.
  intros Hbody. induction remaining as [|remaining IH]; intros i result st0 w ids w' Hs H; simpl in H.
  - by apply ret_inv in H as [<- <-].
  - mstep H as items w1 Hit.
    apply repeat_iteration_safe in Hit; [|done|apply Hs..].
    pose proof (store_step_trans _ _ _ _ _ Hs Hit) as Hs1.
    mstep H as guard w2 Hg. apply on_state_store in Hg. rewrite <- Hg in Hs1.
    destruct (guard <=? 0).
    + by apply ret_inv in H as [<- <-].
    + by eapply IH.
Qed.

Lemma unroll_statement_safe body original :
  (forall r, store_safe (body r)) -> store_safe (unroll_statement body original).
Proof.
  intros Hbody w ids w' Hwf Hown H. unfold unroll_statement in H.
  mstep H as w0 w1 Hget. apply get_inv in Hget as [-> ->].
  mstep H as u2 w2 Hpush. apply on_state_store in Hpush.
  mstep H as result w3 Hun.
  eapply unroll_safe in Hun; [|done|rewrite Hpush; by apply store_step_refl].
  mstep H as u4 w4 Hpop. apply on_state_store in Hpop.
  mstep H as u5 w5 Hflag. apply ret_inv in H as [<- <-].
  assert (w_store w5 = w_store w4) as ->.
  { destruct (rep_implicit _).
    - by apply on_state_store in Hflag.
    - by apply ret_inv in Hflag as [_ <-]. }
  by rewrite Hpop.
Qed.

(** Every statement leaves the store well formed and owned, changes none of
    the nodes that were there, and returns new nodes that only snippets hold. *)
Lemma convert_statement_safe node : store_safe (convert_statement stringify node).
Proof.
  induction node as [elements repeat IH|name value attributes elements repeat sc IH]
    using TokenNode_nested_ind; rewrite convert_statement_eq; simpl.
  - destruct repeat as [original|].
    + apply unroll_statement_safe. intros r. by apply convert_group_of_safe.
    + by apply convert_group_of_safe.
  - destruct repeat as [original|].
    + apply unroll_statement_safe. intros r. by apply convert_element_of_safe.
    + by apply convert_element_of_safe.
Qed.

Lemma statement_body_safe node r : store_safe (statement_body stringify node r).
Proof.
  destruct node; simpl.
  - apply convert_group_of_safe, Forall_forall. intros child _. apply convert_statement_safe.
  - apply convert_element_of_safe, Forall_forall. intros child _. apply convert_statement_safe.
Qed.

Lemma convert_group_safe node : store_safe (convert_group stringify node).
Proof.
  apply convert_group_of_safe, Forall_forall. intros child _. apply convert_statement_safe.
Qed.

End Statements.

(** ** The shape of the output tree *)

Lemma well_formed_nil : well_formed [].
Proof. intros p c H. apply parent_of_in_store in H. simpl in H. lia. Qed.

Lemma owned_nil : owned [].
Proof. intros c p1 p2 [H _]. apply parent_of_in_store in H. simpl in H. lia. Qed.

Lemma well_formed_descends st p c :
  well_formed st -> tc (parent_of st) p c -> (p < c)%nat.
Proof.
  intros Hwf. induction 1 as [p c H|p q c H _ IH].
  - apply Hwf in H. lia.
  - apply Hwf in H. lia.
Qed.

Lemma store_step_shape st0 st ids c o1 o2 :
  store_step st0 st ids ->
  child_of (mkAbbreviation ids) st o1 c -> child_of (mkAbbreviation ids) st o2 c ->
  o1 = o2 \/ is_snippet st o1 \/ is_snippet st o2.
Proof.
  intros Hs H1 H2.
  destruct o1 as [|p1], o2 as [|p2]; simpl in *.
  - by left.
  - right; right. destruct (text_only (st !!! p2)) eqn:E; [done|].
    by destruct (ss_loose _ _ _ Hs c p2 H1).
  - right; left. destruct (text_only (st !!! p1)) eqn:E; [done|].
    by destruct (ss_loose _ _ _ Hs c p1 H2).
  - destruct (text_only (st !!! p1)) eqn:E1; [by right; left|].
    destruct (text_only (st !!! p2)) eqn:E2; [by right; right|].
    left. f_equal. by apply (ss_owned _ _ _ Hs c).
Qed.

Section Shape.

Variable stringify : Token -> ConvertState -> string * ConvertState.

(** The store and the top-level nodes that [convert] ends with. *)
Lemma convert_store_step abbr options result w :
  convert stringify abbr options = Ok result w ->
  store_step [] (w_store w) (abbr_children result).
Proof.
  unfold convert. intros H.
  mstep H as children w1 Hg.
  apply convert_group_safe in Hg; [|apply well_formed_nil|apply owned_nil]. simpl in Hg.
  mstep H as w1' w2 Hget. apply get_inv in Hget as [-> ->].
  mstep H as u3 w3 Hins. apply ret_inv in H as [<- <-]. simpl.
  destruct (is_not_none _ && negb _).
  - destruct (last children) as [target|] eqn:El; [|done].
    mstep Hins as d w4 Hd. apply deepest_node_inv in Hd as [-> Hd].
    apply update_node_inv in Hins as ->. simpl.
    destruct (deepest_leaf_below _ _ _ (ss_wf _ _ _ Hg) Hd) as (Hle & Hleaf & _).
    apply store_step_alter; try done.
    + apply insert_text_node_children.
    + simpl. lia.
  - by apply ret_inv in Hins as [_ <-].
Qed.

(** C7, as the code has it.  The output of a conversion is acyclic: every
    child is a node of the store that was created after its parent, so no
    node is below itself.  A node may be held twice, but then by a text-only
    snippet: of two different owners of a node (the root or a node) one is a
    snippet, whose children [convert_element] returned next to it. *)
Theorem convert_tree_shape abbr options result w :
  convert stringify abbr options = Ok result w ->
  well_formed (w_store w) /\
  (forall p, ~ tc (parent_of (w_store w)) p p) /\
  (forall c, c ∈ abbr_children result -> (c < length (w_store w))%nat) /\
  (forall c o1 o2,
     child_of result (w_store w) o1 c -> child_of result (w_store w) o2 c ->
     o1 = o2 \/ is_snippet (w_store w) o1 \/ is_snippet (w_store w) o2).
Proof.
  intros H. apply convert_store_step in H. split; [|split; [|split]].
  - apply H.
  - intros p Hp. eapply well_formed_descends in Hp; [lia|apply H].
  - intros c Hc. by apply (ss_range _ _ _ H).
  - intros c o1 o2. destruct result as [ids]. by apply store_step_shape with (st0 := []).
Qed.

End Shape.

(** [div>{txt}>li]: the snippet (node 1) holds [li] (node 2), and so does
    [div] (node 0), to which the snippet handed its child as a sibling. *)
Lemma convert_shares_children :
  exists result w,
    convert sample_stringify div_snippet_li (options_of TextNone (Some 10)) = Ok result w /\
    abbr_children result = [0%nat] /\
    n_children (w_store w !!! 0%nat) = [1%nat; 2%nat] /\
    n_children (w_store w !!! 1%nat) = [2%nat] /\
    ~ exclusively_owned result (w_store w).
Proof.
  eexists _, _. split; [vm_compute; reflexivity|]. repeat split.
  intros H. specialize (H 2%nat (Node 0) (Node 1)). simpl in H.
  assert (Node 0 = Node 1) as E; [|done].
  apply H; unfold parent_of; simpl; set_solver.
Qed.

Lemma convert_tree_shape_witness :
  match convert sample_stringify div_snippet_li (options_of TextNone (Some 10)) with
  | Ok result w =>
      well_formed (w_store w) /\
      (forall p, ~ tc (parent_of (w_store w)) p p) /\
      (forall c, c ∈ abbr_children result -> (c < length (w_store w))%nat) /\
      (forall c o1 o2,
         child_of result (w_store w) o1 c -> child_of result (w_store w) o2 c ->
         o1 = o2 \/ is_snippet (w_store w) o1 \/ is_snippet (w_store w) o2)
  | Raise _ => False
  end.
Proof.
  destruct (convert sample_stringify div_snippet_li (options_of TextNone (Some 10)))
    as [result w|e] eqn:E.
  - exact (convert_tree_shape sample_stringify _ _ _ _ E).
  - vm_compute in E. discriminate E.
Defined.

(** ** The element converter *)

Lemma some_false {A} (items : list A) fn :
  some items fn = false <-> Forall (fun item => fn item = false) items.
Proof.
  induction items as [|item rest IH]; simpl.
  - split; [constructor|done].
  - destruct (fn item) eqn:E.
    + split; [done|]. intros H. apply Forall_cons in H as [H _]. congruence.
    + rewrite IH. split; [by constructor|]. by intros [_ H]%Forall_cons.
Qed.

(** The test of [convert_element] holds exactly when the node has no name,
    no attributes, a value, and no field in the value. *)
Lemma text_only_spec e : text_only e = true <-> flattening_applies e.
Proof.
  unfold text_only, flattening_applies.
  rewrite !andb_true_iff, !negb_true_iff, some_false.
  split.
  - intros [[[Hn Ha] Hv] Hf]. repeat split.
    + destruct (n_name e) as [[|c nm]|]; auto; done.
    + destruct (n_attributes e) as [[|a attrs]|]; auto; done.
    + destruct (n_value e) as [[|seg segs]|]; [done| |done]. by eexists.
  - intros ([Hn|Hn] & [Ha|Ha] & (v & Hv & Hne & Hf)); rewrite Hn, Ha, Hv;
      by destruct v.
Qed.

Section ElementConverter.

Variable stringify : Token -> ConvertState -> string * ConvertState.

Lemma convert_element_of_result rec name value attributes elements repeat sc w ids w' :
  convert_element_of stringify rec name value attributes elements repeat sc w = Ok ids w' ->
  exists elem,
    ids = if text_only (w_store w' !!! elem) then elem :: n_children (w_store w' !!! elem)
          else [elem].
Proof.
  unfold convert_element_of. intros H.
  mstep H as elem w1 Hinit. mstep H as u2 w2 Hkids. mstep H as u3 w3 Hattrs.
  mstep H as e w4 Hread. apply read_node_inv in Hread as [-> ->].
  exists elem. destruct (text_only (w_store w3 !!! elem)) eqn:E;
    apply ret_inv in H as [<- <-]; by rewrite E.
Qed.

(** C3.  The list [convert_element] returns starts with the node it made.
    When that node has no name (none, or an empty one), no attributes, a
    value, and no field in the value, the children of the node follow it in
    the list, which then has one more element than the node has children; in
    every other case the list is the node alone.  For an element that is not
    repeated this list is what [convert_statement] returns. *)
Theorem convert_element_flattening node w ids w' :
  well_formed (w_store w) -> owned (w_store w) ->
  convert_element stringify node w = Ok ids w' ->
  exists elem e,
    w_store w' !! elem = Some e /\
    (flattening_applies e ->
       ids = elem :: n_children e /\ length ids = S (length (n_children e))) /\
    (~ flattening_applies e -> ids = [elem] /\ length ids = 1%nat) /\
    (node_repeat node = None -> convert_statement stringify node w = Ok ids w').
Proof.
  intros Hwf Hown H.
  destruct node as [elements repeat|name value attributes elements repeat sc]; [done|].
  simpl in H.
  pose proof (convert_element_of_safe stringify _ name value attributes elements repeat sc
                (proj2 (Forall_forall _ _) (fun child _ => convert_statement_safe stringify child))
                _ _ _ Hwf Hown H) as Hs.
  destruct (convert_element_of_result _ _ _ _ _ _ _ _ _ _ H) as [elem Hids].
  exists elem, (w_store w' !!! elem).
  assert (elem ∈ ids) as Hin by (rewrite Hids; destruct (text_only _); by left).
  apply (ss_range _ _ _ Hs) in Hin.
  split; [apply list_lookup_lookup_total_lt; lia|].
  split; [|split].
  - intros Hf. apply text_only_spec in Hf. rewrite Hf in Hids. by subst ids.
  - intros Hf. destruct (text_only _) eqn:E; [by apply text_only_spec in E|]. by subst ids.
  - intros Hr. simpl in Hr. subst repeat. by rewrite convert_statement_eq.
Qed.

End ElementConverter.

Lemma convert_element_flattening_witness :
  exists ids w' elem e,
    convert_element sample_stringify (snippet "txt" [tag "a"; tag "b"])
      (start TextNone (Some 10)) = Ok ids w' /\
    w_store w' !! elem = Some e /\
    flattening_applies e /\ ids = elem :: n_children e /\ length ids = 3%nat.
Proof.
  set (w := start TextNone (Some 10)).
  destruct (convert_element sample_stringify (snippet "txt" [tag "a"; tag "b"]) w)
    as [ids w'|e] eqn:E; [|vm_compute in E; discriminate E].
  destruct (convert_element_flattening sample_stringify _ w ids w'
              well_formed_nil owned_nil E) as (el & e & He & Hflat & Hnot & _).
  exists ids, w', el, e. split; [done|]. split; [done|].
  vm_compute in E. simplify_eq.
  destruct (text_only e) eqn:Et.
  - apply text_only_spec in Et. destruct (Hflat Et) as [Hids Hl]. by rewrite <- Hids.
  - destruct Hnot as [Hids _]; [|done]. intros Hf. apply text_only_spec in Hf. congruence.
Defined.

(** ** Putting the text into the deepest node *)

(** [insert_text] appends to the last element of the value when that is a
    string, appends a new string otherwise, and makes a value of the text
    alone when there is none. *)
Lemma insert_text_node_value tx n :
  (forall segs s, n_value n = Some (segs ++ [SegStr s]) ->
     n_value (insert_text_node tx n) = Some (segs ++ [SegStr (s +:+ tx)])) /\
  (forall segs f, n_value n = Some (segs ++ [SegField f]) ->
     n_value (insert_text_node tx n) = Some (segs ++ [SegField f; SegStr tx])) /\
  (n_value n = None \/ n_value n = Some [] ->
     n_value (insert_text_node tx n) = Some [SegStr tx]).
Proof.
  unfold insert_text_node. split; [|split].
  - intros segs s ->. destruct (segs ++ [SegStr s]) as [|seg rest] eqn:E.
    { by destruct segs. }
    rewrite <- E, last_snoc, removelast_last. done.
  - intros segs f ->. destruct (segs ++ [SegField f]) as [|seg rest] eqn:E.
    { by destruct segs. }
    rewrite <- E, last_snoc. simpl. by rewrite <- app_assoc.
  - by intros [-> | ->].
Qed.

Section TextInsertion.

Variable stringify : Token -> ConvertState -> string * ConvertState.


End TextInsertion.



(** ** The conversion state *)

Lemma guard_le_refl g : guard_le g g.
Proof. destruct g; simpl; [lia|done]. Qed.

Lemma guard_le_trans g2 g1 g0 : guard_le g1 g0 -> guard_le g2 g1 -> guard_le g2 g0.
Proof. destruct g0, g1, g2; simpl; try done. lia. Qed.

Lemma evolves_refl s : evolves s s.
Proof. split; try done. apply guard_le_refl. Qed.

Lemma evolves_trans s0 s1 s2 : evolves s0 s1 -> evolves s1 s2 -> evolves s0 s2.
Proof.
  intros [T1 V1 R1 G1 I1 X1] [T2 V2 R2 G2 I2 X2]. split; try congruence; auto.
  by eapply guard_le_trans.
Qed.

Lemma sample_stringify_flags_only : flags_only sample_stringify.
Proof.
  intros token s. destruct token as [v|[i|] nm|q|o c| | |op|]; simpl; try done.
  unfold get_text, bind, modify, get. simpl.
  destruct (text s) as [|str|lines] eqn:Et; simpl; rewrite ?Et; try done.
  destruct (closest_implicit (repeaters s)) as [r|]; simpl; rewrite ?Et; [|done].
  destruct (py_index lines (rep_value r)); simpl; by rewrite ?Et.
Qed.

Lemma state_evolves_ret {A} (a : A) : state_evolves (ret a).
Proof. intros s a' s' [_ <-]%ret_inv. apply evolves_refl. Qed.

Lemma state_evolves_bind {A B} (m : M ConvertState A) (k : A -> M ConvertState B) :
  state_evolves m -> (forall a, state_evolves (k a)) -> state_evolves (bind m k).
Proof.
  intros Hm Hk s b s' H. mstep H as a s1 H1.
  eapply evolves_trans; [by eapply Hm|by eapply Hk].
Qed.

Lemma world_evolves_ret {A} (a : A) : world_evolves (ret a).
Proof. intros s a' s' [_ <-]%ret_inv. apply evolves_refl. Qed.

Lemma world_evolves_bind {A B} (m : M World A) (k : A -> M World B) :
  world_evolves m -> (forall a, world_evolves (k a)) -> world_evolves (bind m k).
Proof.
  intros Hm Hk s b s' H. mstep H as a s1 H1.
  eapply evolves_trans; [by eapply Hm|by eapply Hk].
Qed.

Lemma world_evolves_on_state {A} (m : M ConvertState A) :
  state_evolves m -> world_evolves (on_state m).
Proof. intros Hm w a w' (s' & H & ->)%on_state_inv. by eapply Hm. Qed.

Lemma world_evolves_update f id : world_evolves (update_node f id).
Proof. intros w u w' ->%update_node_inv. apply evolves_refl. Qed.

Lemma world_evolves_alloc n : world_evolves (alloc n).
Proof. intros w id w' [_ ->]%alloc_inv. apply evolves_refl. Qed.

Lemma world_evolves_read id : world_evolves (read_node id).
Proof. intros w n w' [_ ->]%read_node_inv. apply evolves_refl. Qed.

Lemma world_evolves_deepest node : world_evolves (deepest_node node).
Proof. intros w n w' [-> _]%deepest_node_inv. apply evolves_refl. Qed.

Lemma world_evolves_attach items repeater : world_evolves (attach_repeater items repeater).
Proof.
  unfold attach_repeater. apply world_evolves_bind; [|intros; apply world_evolves_ret].
  induction items as [|item rest IH]; simpl; [apply world_evolves_ret|].
  apply world_evolves_bind; [apply world_evolves_update|done].
Qed.

Lemma state_evolves_get_text pos : state_evolves (get_text pos).
Proof.
  intros s a s' H. unfold get_text in H. mstep H as u s1 Hm. unfold modify in Hm.
  mstep H as s1' s2 Hg. apply get_inv in Hg as [-> ->]. simplify_eq.
  assert (s' = set_text_inserted true s) as ->.
  { simpl in H. destruct (text s); [by apply ret_inv in H as [_ <-]..|].
    destruct pos as [p|]; [|by apply ret_inv in H as [_ <-]].
    destruct (py_index lines p); [by apply ret_inv in H as [_ <-]|done]. }
  split; try done. apply guard_le_refl.
Qed.

Section StateInvariant.

Variable stringify : Token -> ConvertState -> string * ConvertState.
Hypothesis stringify_ok : flags_only stringify.

Lemma state_evolves_render token : state_evolves (render stringify token).
Proof.
  intros s a s' H. unfold render in H. pose proof (stringify_ok token s) as Hs.
  destruct (stringify token s) as [str s1]. simplify_eq. simpl in Hs.
  destruct Hs as (? & ? & ? & Hg & ? & ?). split; try done. rewrite Hg. apply guard_le_refl.
Qed.

Lemma state_evolves_render_all tokens : state_evolves (render_all stringify tokens).
Proof.
  induction tokens as [|token rest IH]; simpl; [apply state_evolves_ret|].
  apply state_evolves_bind; [apply state_evolves_render|]. intros str.
  apply state_evolves_bind; [done|]. intros strs. apply state_evolves_ret.
Qed.

Lemma state_evolves_stringify_name tokens : state_evolves (stringify_name stringify tokens).
Proof.
  apply state_evolves_bind; [apply state_evolves_render_all|]. intros; apply state_evolves_ret.
Qed.

Lemma state_evolves_stringify_value tokens : state_evolves (stringify_value stringify tokens).
Proof.
  unfold stringify_value. generalize (@nil Segment) (@nil string).
  induction tokens as [|token rest IH]; intros result accum; simpl; [apply state_evolves_ret|].
  destruct (is_field token); [done|].
  apply state_evolves_bind; [apply state_evolves_render|]. by intros str.
Qed.

Lemma state_evolves_name_or_none tokens : state_evolves (name_or_none stringify tokens).
Proof.
  destruct tokens as [[|t ts]|]; simpl; try apply state_evolves_ret.
  apply state_evolves_bind; [apply state_evolves_stringify_name|]. intros; apply state_evolves_ret.
Qed.

Lemma state_evolves_value_or_none tokens : state_evolves (value_or_none stringify tokens).
Proof.
  destruct tokens as [[|t ts]|]; simpl; try apply state_evolves_ret.
  apply state_evolves_bind; [apply state_evolves_stringify_value|]. intros; apply state_evolves_ret.
Qed.

Lemma state_evolves_convert_attribute node : state_evolves (convert_attribute stringify node).
Proof.
  unfold convert_attribute. apply state_evolves_bind.
  - unfold AbbreviationAttribute_init.
    apply state_evolves_bind; [apply state_evolves_name_or_none|].
    intros [[|c nm]|]; try apply state_evolves_ret.
    destruct (str_first _); [|done]. destruct (Ascii.eqb _ _); apply state_evolves_ret.
  - intros attr. destruct (tattr_value node) as [[|first rest]|]; try apply state_evolves_ret.
    destruct (is_quote first); [|destruct (is_bracket first BExpression true)];
      (apply state_evolves_bind; [apply state_evolves_stringify_value|]);
      intros; apply state_evolves_ret.
Qed.

Lemma state_evolves_convert_attributes attrs : state_evolves (convert_attributes stringify attrs).
Proof.
  induction attrs as [|attr rest IH]; simpl; [apply state_evolves_ret|].
  apply state_evolves_bind; [apply state_evolves_convert_attribute|]. intros a.
  apply state_evolves_bind; [done|]. intros; apply state_evolves_ret.
Qed.

Lemma world_evolves_init name value repeat sc :
  world_evolves (AbbreviationNode_init stringify name value repeat sc).
Proof.
  unfold AbbreviationNode_init.
  apply world_evolves_bind; [apply world_evolves_on_state, state_evolves_name_or_none|]. intros nm.
  apply world_evolves_bind; [apply world_evolves_on_state, state_evolves_value_or_none|]. intros v.
  apply world_evolves_alloc.
Qed.

End StateInvariant.

Lemma in_loop_evolves s0 s s' : in_loop s0 s -> evolves s s' -> in_loop s0 s'.
Proof.
  intros [T V [top R] G I X] [T' V' R' G' I' X']. split; try congruence; auto.
  - exists top. congruence.
  - by eapply guard_le_trans.
Qed.

Lemma set_top_snoc repeat stack top : set_top repeat (stack ++ [top]) = stack ++ [repeat].
Proof.
  unfold set_top. destruct (stack ++ [top]) eqn:E; [by destruct stack|].
  by rewrite <- E, removelast_last.
Qed.

Lemma in_loop_set_current s0 w repeat :
  in_loop s0 (w_state w) -> in_loop s0 (w_state (set_current repeat w)).
Proof.
  intros [T V [top R] G I X]. split; try done. exists repeat. simpl.
  by rewrite R, set_top_snoc.
Qed.

Lemma world_evolves_decrement : world_evolves decrement_guard.
Proof.
  intros w g w' (s' & H & ->)%on_state_inv. simpl.
  mstep H as s1 s2 Hg. apply get_inv in Hg as [-> ->].
  destruct (repeat_guard (w_state w)) as [g0|] eqn:E; [|done].
  mstep H as u s3 Hp. unfold put in Hp. apply ret_inv in H as [_ <-]. simplify_eq.
  split; try done. simpl. rewrite E. simpl. lia.
Qed.

Section Evolution.

Variable stringify : Token -> ConvertState -> string * ConvertState.
Hypothesis stringify_ok : flags_only stringify.

Lemma convert_statements_evolves rec elements :
  Forall (fun child => world_evolves (rec child)) elements ->
  forall result, world_evolves (convert_statements rec elements result).
Proof.
  induction 1 as [|child rest Hc _ IH]; intros result; simpl; [apply world_evolves_ret|].
  apply world_evolves_bind; [done|]. intros items. apply IH.
Qed.

Lemma convert_group_of_evolves rec elements repeat :
  Forall (fun child => world_evolves (rec child)) elements ->
  world_evolves (convert_group_of rec elements repeat).
Proof.
  intros Hel. unfold convert_group_of.
  apply world_evolves_bind; [by apply convert_statements_evolves|]. intros result.
  destruct repeat; [apply world_evolves_attach|apply world_evolves_ret].
Qed.

Lemma convert_children_evolves rec elem elements :
  Forall (fun child => world_evolves (rec child)) elements ->
  world_evolves (convert_children rec elem elements).
Proof.
  induction 1 as [|child rest Hc _ IH]; simpl; [apply world_evolves_ret|].
  apply world_evolves_bind; [done|]. intros items.
  apply world_evolves_bind; [apply world_evolves_update|]. by intros _.
Qed.

Lemma convert_element_of_evolves rec name value attributes elements repeat sc :
  Forall (fun child => world_evolves (rec child)) elements ->
  world_evolves (convert_element_of stringify rec name value attributes elements repeat sc).
Proof.
  intros Hel. unfold convert_element_of.
  apply world_evolves_bind; [by apply world_evolves_init|]. intros elem.
  apply world_evolves_bind; [by apply convert_children_evolves|]. intros _.
  apply world_evolves_bind.
  { destruct attributes as [[|attr attrs]|]; try apply world_evolves_ret.
    apply world_evolves_bind; [|intros; apply world_evolves_update].
    by apply world_evolves_on_state, state_evolves_convert_attributes. }
  intros _. apply world_evolves_bind; [apply world_evolves_read|]. intros e.
  destruct (text_only e); apply world_evolves_ret.
Qed.

Lemma repeat_iteration_in_loop body repeat i s0 w items w' :
  (forall r, world_evolves (body r)) ->
  in_loop s0 (w_state w) ->
  repeat_iteration body repeat i w = Ok items w' ->
  in_loop s0 (w_state w').
Proof.
  intros Hbody Hl H. unfold repeat_iteration in H.
  mstep H as u1 w1 Htop. unfold modify in Htop. simplify_eq.
  apply (in_loop_set_current _ _ (set_rep_value i repeat)) in Hl.
  eapply in_loop_evolves; [exact Hl|]. revert H.
  apply (world_evolves_bind (body _)); [done|]. intros items'.
  apply world_evolves_bind; [intros ? ? ? [_ ->]%get_inv; apply evolves_refl|]. intros w2.
  apply world_evolves_bind; [|intros; apply world_evolves_ret].
  destruct (_ && _); [|apply world_evolves_ret].
  destruct (last items'); [|done].
  apply world_evolves_bind; [apply world_evolves_deepest|]. intros d.
  apply world_evolves_bind; [apply world_evolves_on_state, state_evolves_get_text|].
  intros tx. apply world_evolves_update.
Qed.

Lemma unroll_in_loop body repeat s0 :
  (forall r, world_evolves (body r)) ->
  forall remaining i result w ids w',
    in_loop s0 (w_state w) ->
    unroll body repeat remaining i result w = Ok ids w' ->
    in_loop s0 (w_state w').
Proof.
  intros Hbody. induction remaining as [|remaining IH]; intros i result w ids w' Hl H; simpl in H.
  - by apply ret_inv in H as [_ <-].
  - mstep H as items w1 Hit. eapply repeat_iteration_in_loop in Hit; [|done..].
    mstep H as guard w2 Hg. apply world_evolves_decrement in Hg.
    pose proof (in_loop_evolves _ _ _ Hit Hg) as Hl2.
    destruct (guard <=? 0); [by apply ret_inv in H as [_ <-]|by eapply IH].
Qed.

Lemma unroll_statement_evolves body original :
  (forall r, world_evolves (body r)) -> world_evolves (unroll_statement body original).
Proof.
  intros Hbody w ids w' H. unfold unroll_statement in H.
  mstep H as w0 w1 Hget. apply get_inv in Hget as [-> ->].
  mstep H as u2 w2 Hpush. unfold push_repeater, on_state, modify in Hpush. simplify_eq.
  mstep H as result w3 Hun.
  eapply (unroll_in_loop _ _ (w_state w)) in Hun; [|done|].
  2: { split; simpl; try done; [by eexists|apply guard_le_refl]. }
  destruct Hun as [T V [top R] G I X].
  mstep H as u4 w4 Hpop. apply on_state_inv in Hpop as (s4 & Hpop & ->).
  mstep Hpop as s3 s3' Hg. apply get_inv in Hg as [-> ->]. rewrite R in Hpop.
  destruct (repeaters (w_state w) ++ [top]) eqn:E; [by destruct (repeaters (w_state w))|].
  rewrite <- E, removelast_last in Hpop. unfold put in Hpop. simplify_eq.
  mstep H as u5 w5 Hflag. apply ret_inv in H as [_ <-].
  assert (evolves (w_state w) (set_repeaters (repeaters (w_state w)) (w_state w3))) as Hev
    by (by split).
  destruct (rep_implicit _).
  - apply on_state_inv in Hflag as (s5 & Hm & ->). unfold modify in Hm. simplify_eq.
    simpl. by split.
  - by apply ret_inv in Hflag as [_ <-].
Qed.

(** Every statement lets the conversion state evolve: text, variables and
    repeater stack are as before, the guard has not grown, no flag was reset. *)
Lemma convert_statement_evolves node : world_evolves (convert_statement stringify node).
Proof.
  induction node as [elements repeat IH|name value attributes elements repeat sc IH]
    using TokenNode_nested_ind; rewrite convert_statement_eq; simpl.
  - destruct repeat as [original|].
    + apply unroll_statement_evolves. intros r. by apply convert_group_of_evolves.
    + by apply convert_group_of_evolves.
  - destruct repeat as [original|].
    + apply unroll_statement_evolves. intros r. by apply convert_element_of_evolves.
    + by apply convert_element_of_evolves.
Qed.

Lemma statement_body_evolves node r : world_evolves (statement_body stringify node r).
Proof.
  destruct node; simpl.
  - apply convert_group_of_evolves, Forall_forall. intros child _. apply convert_statement_evolves.
  - apply convert_element_of_evolves, Forall_forall. intros child _. apply convert_statement_evolves.
Qed.

End Evolution.

(** ** The inserted flag *)

Section InsertedFlag.

Variable stringify : Token -> ConvertState -> string * ConvertState.



End InsertedFlag.



(** ** The repeat guard *)

Lemma renders_ret {A} (a : A) : renders (ret a).
Proof. intros s. by exists a, s. Qed.

Lemma renders_bind {A B} (m : M ConvertState A) (k : A -> M ConvertState B) :
  renders m -> (forall a, renders (k a)) -> renders (bind m k).
Proof.
  intros Hm Hk s. destruct (Hm s) as (a & s1 & E1 & G1 & R1).
  destruct (Hk a s1) as (b & s2 & E2 & G2 & R2).
  exists b, s2. rewrite (bind_ok _ _ _ _ _ E1). split; [done|]. split; congruence.
Qed.


Section RepeatGuard.

Variable stringify : Token -> ConvertState -> string * ConvertState.
Hypothesis stringify_ok : flags_only stringify.

Lemma renders_render token : renders (render stringify token).
Proof.
  intros s. unfold render. pose proof (stringify_ok token s) as Hs.
  destruct (stringify token s) as [str s1]. simpl in Hs.
  destruct Hs as (_ & _ & ? & ? & _). by exists str, s1.
Qed.

Lemma renders_name_or_none tokens : renders (name_or_none stringify tokens).
Proof.
  destruct tokens as [[|t ts]|]; try apply renders_ret.
  unfold name_or_none, stringify_name.
  apply renders_bind; [|intros; apply renders_ret].
  apply renders_bind; [|intros; apply renders_ret].
  induction (t :: ts) as [|token rest IH]; simpl; [apply renders_ret|].
  apply renders_bind; [apply renders_render|]. intros str.
  apply renders_bind; [done|]. intros; apply renders_ret.
Qed.

Lemma renders_value_or_none tokens : renders (value_or_none stringify tokens).
Proof.
  destruct tokens as [[|t ts]|]; try apply renders_ret.
  unfold value_or_none, stringify_value.
  apply renders_bind; [|intros; apply renders_ret].
  generalize (@nil Segment) (@nil string).
  induction (t :: ts) as [|token rest IH]; intros result accum; simpl; [apply renders_ret|].
  destruct (is_field token); [done|].
  apply renders_bind; [apply renders_render|]. by intros str.
Qed.






End RepeatGuard.

Section RepeatGuardTheorem.

Variable stringify : Token -> ConvertState -> string * ConvertState.



End RepeatGuardTheorem.



(** ** Malformed input *)

Lemma str_drop_last_empty c s : str_drop_last (String c s) = EmptyString -> s = EmptyString.
Proof. by destruct s. Qed.

Section MalformedInput.

Variable stringify : Token -> ConvertState -> string * ConvertState.

(** While the children are collected, the name, the value and the
    attributes of the node stay as the constructor set them. *)
Lemma convert_children_fields rec st0 elem elements :
  Forall (fun child => store_safe (rec child)) elements ->
  forall w u w',
    collecting st0 (w_store w) elem ->
    convert_children rec elem elements w = Ok u w' ->
    n_name (w_store w' !!! elem) = n_name (w_store w !!! elem) /\
    n_value (w_store w' !!! elem) = n_value (w_store w !!! elem) /\
    n_attributes (w_store w' !!! elem) = n_attributes (w_store w !!! elem).
Proof.
  induction 1 as [|child rest Hc _ IH]; intros w u w' Hco H; simpl in H.
  - by apply ret_inv in H as [_ <-].
  - mstep H as items w1 Hchild. mstep H as u2 w2 Hup. apply update_node_inv in Hup as ->.
    pose proof (Hc _ _ _ (co_wf _ _ _ Hco) (co_owned _ _ _ Hco) Hchild) as Hs.
    pose proof (collecting_add _ _ _ _ _ Hco Hs) as Hco2.
    destruct (IH (mkWorld (w_state w1) (alter (add_children items) elem (w_store w1)))
                _ _ Hco2 H) as (-> & -> & ->).
    simpl.
    assert (elem < length (w_store w))%nat as Hlt
      by (rewrite (co_elem _ _ _ Hco); apply (co_length _ _ _ Hco)).
    rewrite list_lookup_total_alter_eq by (pose proof (ss_length _ _ _ Hs); lia).
    simpl. by rewrite (lookup_total_eq _ _ _ (ss_frame _ _ _ Hs _ Hlt)).
Qed.

Lemma convert_element_missing_fields elements repeat sc w ids w' :
  well_formed (w_store w) -> owned (w_store w) ->
  convert_element stringify (TokenElement None None None elements repeat sc) w = Ok ids w' ->
  exists e,
    w_store w' !! length (w_store w) = Some e /\ head ids = Some (length (w_store w)) /\
    n_name e = None /\ n_value e = None /\ n_attributes e = None.
Proof.
  intros Hwf Hown H. simpl in H. unfold convert_element_of in H.
  mstep H as elem w1 Hinit. unfold AbbreviationNode_init in Hinit. simpl in Hinit.
  unfold bind, on_state, ret, alloc in Hinit. simpl in Hinit. simplify_eq.
  mstep H as u2 w2 Hkids.
  assert (Forall (fun child => store_safe (convert_statement stringify child)) elements) as Hel
    by (apply Forall_forall; intros child _; apply convert_statement_safe).
  set (w1 := mkWorld _ _) in Hkids.
  assert (collecting (w_store w) (w_store w1) (length (w_store w))) as Hco
    by (by apply collecting_start).
  destruct (convert_children_fields _ _ _ _ Hel w1 _ _ Hco Hkids) as (Hn & Hv & Ha).
  pose proof (convert_children_safe _ _ _ _ Hel w1 _ _ Hco Hkids) as Hco2.
  simpl in Hn, Hv, Ha. rewrite list_lookup_total_middle in Hn, Hv, Ha by done.
  mstep H as u3 w3 Hattrs. apply ret_inv in Hattrs as [_ <-].
  mstep H as e w4 Hread. apply read_node_inv in Hread as [-> ->].
  exists (w_store w2 !!! length (w_store w)).
  assert (w' = w2 /\ head ids = Some (length (w_store w))) as [-> Hhead]
    by (destruct (text_only _); by apply ret_inv in H as [<- <-]).
  split; [apply list_lookup_lookup_total_lt; pose proof (co_length _ _ _ Hco2); lia|].
  done.
Qed.

Lemma attribute_name_handled node s nm s1 :
  name_or_none stringify (tattr_name node) s = Ok nm s1 ->
  nm <> Some "." ->
  exists attr,
    AbbreviationAttribute_init stringify node s = Ok attr s1 /\
    attr_value attr = None /\
    (nm = None -> attr_name attr = None).
Proof.
  intros Hn Hdot. unfold AbbreviationAttribute_init. rewrite (bind_ok _ _ _ _ _ Hn).
  destruct nm as [[|c nm]|]; [by eexists..| |by eexists].
  destruct (str_first _) as [c0|] eqn:E.
  - destruct (Ascii.eqb c0 "!"); by eexists.
  - exfalso. apply Hdot.
    destruct (is_char "." (str_last (String c nm))) eqn:Eb; [|done].
    assert (str_drop_last (String c nm) = EmptyString) as Hd
      by (by destruct (str_drop_last (String c nm))).
    apply str_drop_last_empty in Hd as ->. simpl in Eb.
    apply Ascii.eqb_eq in Eb. by subst.
Qed.

(** What the converter does with input that is out of the ordinary.  An
    explicit count of zero, or none, becomes one.  A negative explicit count
    stays as it is: the loop makes no pass and the statement returns no node
    and no error, with the state and the store as they were.  An element
    without name, value and attributes gives a node whose name, value and
    attributes are absent, and an attribute without name and value gives an
    attribute without them.  The name of an attribute is normalised without
    error whenever it does not render as the single character [.]. *)
Theorem malformed_input_absorbed :
  (forall r s, rep_implicit r = false -> rep_count r = Some 0 \/ rep_count r = None ->
     effective_count r s = 1) /\
  (forall node r c w, node_repeat node = Some r -> rep_implicit r = false ->
     rep_count r = Some c -> c < 0 ->
     convert_statement stringify node w = Ok [] w) /\
  (forall elements repeat sc w ids w',
     well_formed (w_store w) -> owned (w_store w) ->
     convert_element stringify (TokenElement None None None elements repeat sc) w = Ok ids w' ->
     exists e,
       w_store w' !! length (w_store w) = Some e /\ head ids = Some (length (w_store w)) /\
       n_name e = None /\ n_value e = None /\ n_attributes e = None) /\
  (forall expr s,
     convert_attribute stringify (mkTokenAttribute None None expr) s =
     Ok (mkAttribute None None (if expr then expression else raw) false false) s) /\
  (forall node s nm s1,
     name_or_none stringify (tattr_name node) s = Ok nm s1 -> nm <> Some "." ->
     exists attr,
       AbbreviationAttribute_init stringify node s = Ok attr s1 /\
       attr_value attr = None /\ (nm = None -> attr_name attr = None)).
Proof.
  split; [|split; [|split; [|split]]].
  - intros r s Himp Hc. unfold effective_count. rewrite Himp. by destruct Hc as [-> | ->].
  - intros node r c w Hr Himp Hc Hneg. rewrite convert_statement_eq, Hr.
    unfold unroll_statement, bind at 1, get. unfold effective_count. simpl.
    rewrite Himp, Hc. assert (count_or_1 (Some c) = c) as -> by (by destruct c).
    assert (Z.to_nat c = 0%nat) as -> by lia. simpl.
    unfold push_repeater, pop_repeater, on_state, modify, get, put, ret, bind. simpl.
    destruct (repeaters (w_state w) ++ [_]) eqn:E; [by destruct (repeaters (w_state w))|].
    rewrite <- E, removelast_last. simpl. by destruct w as [[] ?].
  - apply convert_element_missing_fields.
  - done.
  - apply attribute_name_handled.
Qed.

End MalformedInput.

(** [li*-1]: the count stays negative and the statement is not unrolled. *)
Lemma negative_count_not_unrolled :
  count_or_1 (Some (-1)) = -1 /\
  effective_count (mkRepeater (Some (-1)) 0 false)
    (initial_state (options_of TextNone (Some 10))) = -1 /\
  convert sample_stringify (TokenGroup [tag_times "li" (-1)] None)
    (options_of TextNone (Some 10))
  = Ok (mkAbbreviation []) (start TextNone (Some 10)).
Proof. done. Qed.

(** C5.  An attribute whose name is the single delimiter [.] makes the
    converter raise: the constructor tests that the name is not empty, takes
    the dot off, and then reads the first character of what is left, which
    is nothing.  [convert_attribute] fails with IndexError whatever the
    value of the attribute and the state are, and so does [convert] on
    [a[.]], whatever the options. *)
Theorem attribute_dot_raises :
  (forall value expr s,
     AbbreviationAttribute_init sample_stringify
       (mkTokenAttribute (Some [Literal "."]) value expr) s = Raise IndexError) /\
  (forall value expr s,
     convert_attribute sample_stringify
       (mkTokenAttribute (Some [Literal "."]) value expr) s = Raise IndexError) /\
  (forall value expr options,
     convert sample_stringify
       (TokenGroup
          [TokenElement (Some [Literal "a"]) None
             (Some [mkTokenAttribute (Some [Literal "."]) value expr]) [] None false]
          None)
       options = Raise IndexError).
Proof.
  split; [done|]. split; [done|]. intros value expr options. done.
Qed.

(** The attribute name [.]: after the dot is taken off, the test for [!]
    indexes an empty string. *)
Example attribute_name_dot_raises s :
  convert_attribute sample_stringify (mkTokenAttribute (Some [Literal "."]) None false) s
  = Raise IndexError.
Proof. done. Qed.

Lemma malformed_input_absorbed_witness :
  convert_statement sample_stringify (tag_times "li" (-3)) (start TextNone (Some 10))
  = Ok [] (start TextNone (Some 10)) /\
  exists attr,
    AbbreviationAttribute_init sample_stringify
      (mkTokenAttribute (Some [Literal "!."]) None false)
      (w_state (start TextNone (Some 10)))
    = Ok attr (w_state (start TextNone (Some 10))) /\
    attr_value attr = None.
Proof.
  set (w := start TextNone (Some 10)).
  destruct (malformed_input_absorbed sample_stringify) as (_ & Hneg & _ & _ & Hattr).
  split.
  - apply (Hneg (tag_times "li" (-3)) (mkRepeater (Some (-3)) 0 false) (-3) w);
      [reflexivity|reflexivity|reflexivity|lia].
  - destruct (Hattr (mkTokenAttribute (Some [Literal "!."]) None false) (w_state w)
                (Some "!.") (w_state w)) as (attr & E & V & _); [reflexivity|done|].
    by exists attr.
Defined.


(** * Further properties of the module *)

(** ** Names and values *)

Lemma append_nil_r (str : string) : str +:+ EmptyString = str.
Proof.
  induction str as [|c str IH]; [done|].
  change (String c (str +:+ EmptyString) = String c str). by f_equal.
Qed.

Lemma append_assoc (s1 s2 s3 : string) : (s1 +:+ s2) +:+ s3 = s1 +:+ s2 +:+ s3.
Proof.
  induction s1 as [|c s1 IH]; [done|].
  change (String c ((s1 +:+ s2) +:+ s3) = String c (s1 +:+ s2 +:+ s3)). by f_equal.
Qed.

Lemma join_empty_cons part parts :
  join EmptyString (part :: parts) = part +:+ join EmptyString parts.
Proof. unfold join. destruct parts; simpl; [by rewrite append_nil_r|done]. Qed.

Lemma join_empty_app parts1 parts2 :
  join EmptyString (parts1 ++ parts2) = join EmptyString parts1 +:+ join EmptyString parts2.
Proof.
  induction parts1 as [|part parts1 IH]; [done|].
  rewrite <- app_comm_cons, !join_empty_cons, IH. by rewrite append_assoc.
Qed.

Lemma seg_text_app v1 v2 : seg_text (v1 ++ v2) = seg_text v1 +:+ seg_text v2.
Proof.
  induction v1 as [|[str|token] v1 IH]; simpl; [done| |done].
  by rewrite IH, append_assoc.
Qed.

Lemma seg_fields_app v1 v2 : seg_fields (v1 ++ v2) = seg_fields v1 ++ seg_fields v2.
Proof. induction v1 as [|[str|token] v1 IH]; simpl; [done|done|]. by rewrite IH. Qed.

Lemma alternates_snoc_field v token : alternates (v ++ [SegField token]) = alternates v.
Proof.
  induction v as [|[str|t] v IH]; simpl; [done| |done].
  destruct v as [|[str'|t'] v]; simpl in *; done.
Qed.

(** A string may follow a list that is empty or ends in a field. *)
Lemma alternates_snoc_str v str :
  match last v with Some (SegStr _) => False | _ => True end ->
  alternates (v ++ [SegStr str]) = alternates v.
Proof.
  induction v as [|[str'|t] v IH]; simpl; [done| |].
  - destruct v as [|[str''|t'] v]; [done|done|]. intros H. apply IH. by rewrite last_cons_cons in H.
  - destruct v as [|seg v]; [done|]. intros H. apply IH. by rewrite last_cons_cons in H.
Qed.

Section NamesAndValues.

Variable stringify : Token -> ConvertState -> string * ConvertState.

Lemma render_total token s :
  exists str s', render stringify token s = Ok str s'.
Proof. unfold render. destruct (stringify token s) as [str s']. by eexists _, _. Qed.

Lemma render_all_total tokens : forall s,
  exists parts s', render_all stringify tokens s = Ok parts s'.
Proof.
  induction tokens as [|token rest IH]; intros s; simpl; [by eexists _, _|].
  destruct (render_total token s) as (str & s1 & E1). rewrite (bind_ok _ _ _ _ _ E1).
  destruct (IH s1) as (parts & s2 & E2). rewrite (bind_ok _ _ _ _ _ E2). by eexists _, _.
Qed.

Lemma render_all_app tokens1 tokens2 s :
  render_all stringify (tokens1 ++ tokens2) s =
  (do parts1 <- render_all stringify tokens1;
   do parts2 <- render_all stringify tokens2;
   ret (parts1 ++ parts2)) s.
Proof.
  revert s. induction tokens1 as [|token rest IH]; intros s; simpl.
  - unfold bind, ret. by destruct (render_all stringify tokens2 s).
  - unfold bind at 1 3 4. destruct (render stringify token s) as [str s1|e]; [|done].
    unfold bind at 1 2 3. rewrite IH. unfold bind.
    destruct (render_all stringify rest s1) as [parts1 s2|e]; [|done].
    unfold ret at 3. by destruct (render_all stringify tokens2 s2).
Qed.

(** X1.  [stringify_name] renders the tokens from left to right and puts the
    texts together: the name of two token lists in a row is the name of the
    first followed by the name of the second, rendered in the state the
    first leaves; no tokens give the empty name. *)
Theorem stringify_name_app tokens1 tokens2 s :
  stringify_name stringify [] s = Ok EmptyString s /\
  stringify_name stringify (tokens1 ++ tokens2) s =
  (do name1 <- stringify_name stringify tokens1;
   do name2 <- stringify_name stringify tokens2;
   ret (name1 +:+ name2)) s.
Proof.
  split; [done|]. unfold stringify_name. unfold bind at 1. rewrite render_all_app.
  unfold bind, ret.
  destruct (render_all stringify tokens1 s) as [parts1 s1|e]; [|done].
  destruct (render_all stringify tokens2 s1) as [parts2 s2|e]; [|done].
  by rewrite join_empty_app.
Qed.

Lemma flush_spec result accum :
  match last result with Some (SegStr _) => False | _ => True end ->
  alternates result = true ->
  seg_text (flush result accum) = seg_text result +:+ join EmptyString accum /\
  seg_fields (flush result accum) = seg_fields result /\
  alternates (flush result accum) = true /\
  length (flush result accum) = (length result + Nat.min 1 (length accum))%nat.
Proof.
  intros Hlast Halt. destruct accum as [|part accum]; simpl.
  - by rewrite append_nil_r, Nat.add_0_r.
  - rewrite seg_text_app, seg_fields_app, alternates_snoc_str, length_app by done.
    simpl. by rewrite append_nil_r, app_nil_r.
Qed.

(** What the loop of [stringify_value] returns, from any point of the loop
    at which [result] is empty or ends in a field. *)
Lemma stringify_value_loop_spec tokens : forall result accum s,
  match last result with Some (SegStr _) => False | _ => True end ->
  alternates result = true ->
  exists v parts s',
    stringify_value_loop stringify tokens result accum s = Ok v s' /\
    render_all stringify (non_fields tokens) s = Ok parts s' /\
    seg_text v = seg_text result +:+ join EmptyString (accum ++ parts) /\
    seg_fields v = seg_fields result ++ List.filter is_field tokens /\
    alternates v = true /\
    (length v <= length result + length tokens + Nat.min 1 (length accum))%nat /\
    (length result + Nat.min 1 (length accum + length tokens) <= length v)%nat.
Proof.
  induction tokens as [|token rest IH]; intros result accum s Hlast Halt; simpl.
  - destruct (flush_spec result accum Hlast Halt) as (Ht & Hf & Ha & Hl).
    exists (flush result accum), [], s. split; [done|]. split; [done|].
    rewrite !app_nil_r. repeat split; try done; destruct accum; simpl in *; lia.
  - unfold non_fields in *. simpl. destruct (is_field token) eqn:Ef; simpl.
    + destruct (flush_spec result accum Hlast Halt) as (Ht0 & Hf0 & Ha0 & Hl0).
      destruct (IH (flush result accum ++ [SegField token]) [] s)
        as (v & parts & s' & E & Er & Ht & Hf & Ha & Hl & Hlow).
      { by rewrite last_snoc. }
      { by rewrite alternates_snoc_field. }
      exists v, parts, s'. split; [done|]. split; [done|].
      rewrite Ht, Hf, !seg_text_app, !seg_fields_app, Ht0, Hf0. simpl.
      rewrite append_nil_r, join_empty_app, append_assoc, <- app_assoc.
      rewrite length_app in Hl, Hlow.
      repeat split; try done; destruct accum, rest; simpl in *; lia.
    + destruct (render_total token s) as (str & s1 & E1).
      rewrite (bind_ok _ _ _ _ _ E1), (bind_ok _ _ _ _ _ E1).
      destruct (IH result (accum ++ [str]) s1 Hlast Halt)
        as (v & parts & s' & E & Er & Ht & Hf & Ha & Hl & Hlow).
      exists v, (str :: parts), s'. split; [done|].
      rewrite (bind_ok _ _ _ _ _ Er). split; [done|].
      rewrite Ht, Hf, <- app_assoc. rewrite length_app in Hl, Hlow.
      repeat split; try done; destruct accum, rest; simpl in *; lia.
Qed.

(** X2.  [stringify_value] keeps the field tokens: the fields of the value
    list it returns are the field tokens of the input, all of them, in
    their order, and nothing else is kept as a token. *)
Theorem stringify_value_keeps_fields tokens s :
  exists v s',
    stringify_value stringify tokens s = Ok v s' /\
    seg_fields v = List.filter is_field tokens /\
    Forall (fun token => is_field token = true) (seg_fields v).
Proof.
  destruct (stringify_value_loop_spec tokens [] [] s) as (v & parts & s' & E & _ & _ & Hf & _);
    [done..|].
  exists v, s'. split; [done|]. simpl in Hf. split; [done|].
  rewrite Hf. apply Forall_forall. intros token Hin.
  apply list_elem_of_In, filter_In in Hin. tauto.
Qed.

(** X3.  The text of the value list, its strings put together, is the name
    [stringify_name] gives the tokens that are no fields, and the state
    after [stringify_value] is the state after that rendering: the fields
    are not rendered at all. *)
Theorem stringify_value_renders_text tokens s :
  exists v s',
    stringify_value stringify tokens s = Ok v s' /\
    stringify_name stringify (non_fields tokens) s = Ok (seg_text v) s'.
Proof.
  destruct (stringify_value_loop_spec tokens [] [] s) as (v & parts & s' & E & Er & Ht & _);
    [done..|].
  exists v, s'. split; [done|]. unfold stringify_name.
  rewrite (bind_ok _ _ _ _ _ Er). by rewrite Ht.
Qed.

(** X4.  In the value list no two strings stand next to each other, the
    list is no longer than the token list, and it is empty only for the
    empty token list. *)
Theorem stringify_value_alternates tokens s :
  exists v s',
    stringify_value stringify tokens s = Ok v s' /\
    alternates v = true /\
    (length v <= length tokens)%nat /\
    (v = [] <-> tokens = []).
Proof.
  destruct (stringify_value_loop_spec tokens [] [] s)
    as (v & parts & s' & E & Er & Ht & Hf & Ha & Hl & Hlow); [done..|].
  exists v, s'. split; [done|]. split; [done|]. simpl in Hl, Hlow. split; [lia|].
  split.
  - intros ->. destruct tokens as [|token rest]; [done|]. simpl in Hlow. lia.
  - intros ->. unfold stringify_value in E. simpl in E. unfold ret in E. by simplify_eq.
Qed.

End NamesAndValues.

(** ** Attributes *)

Lemma str_last_drop_last str c :
  str_last str = Some c -> str = str_drop_last str +:+ String c EmptyString.
Proof.
  induction str as [|c0 str IH]; [done|]. destruct str as [|c1 str].
  - simpl. intros H. by simplify_eq.
  - intros H. change (String c0 (String c1 str)
                      = String c0 (str_drop_last (String c1 str) +:+ String c EmptyString)).
    f_equal. by apply IH.
Qed.

Lemma str_first_drop_first str c :
  str_first str = Some c -> str = String c (str_drop_first str).
Proof. destruct str; simpl; intros H; by simplify_eq. Qed.

Lemma is_char_eq c o : is_char c o = true -> o = Some c.
Proof.
  destruct o as [c'|]; simpl; [|done]. intros H. apply Ascii.eqb_eq in H. by subst.
Qed.

Section Attributes.

Variable stringify : Token -> ConvertState -> string * ConvertState.

Lemma attribute_init_fields node s attr s' :
  AbbreviationAttribute_init stringify node s = Ok attr s' ->
  attr_value attr = None /\
  attr_value_type attr = (if tattr_expression node then expression else raw).
Proof.
  unfold AbbreviationAttribute_init. intros H. mstep H as rendered s1 Hn.
  destruct rendered as [[|c nm]|]; [by apply ret_inv in H as [<- _]| |
                                    by apply ret_inv in H as [<- _]].
  cbv beta iota zeta in H. destruct (str_first _); [|done].
  destruct (Ascii.eqb _ _); by apply ret_inv in H as [<- _].
Qed.

(** X5.  The name of an output attribute is the rendered name of the token
    without one trailing dot and, after that, without one leading
    exclamation mark.  [boolean] is set exactly when the rendered name ends
    in a dot, [implied] exactly when what is left of it then starts with an
    exclamation mark, and the rendered name can be put together again from
    the name and the two flags.  A name that is missing or renders as empty
    sets no flag.  The value is still absent. *)
Theorem attribute_name_rebuilt node s attr s' :
  AbbreviationAttribute_init stringify node s = Ok attr s' ->
  exists rendered,
    name_or_none stringify (tattr_name node) s = Ok rendered s' /\
    attr_value attr = None /\
    attr_value_type attr = (if tattr_expression node then expression else raw) /\
    match rendered with
    | Some (String c rest) =>
        exists name,
          attr_name attr = Some name /\
          attr_boolean attr = is_char "." (str_last (String c rest)) /\
          attr_implied attr =
            is_char "!" (str_first (if attr_boolean attr then str_drop_last (String c rest)
                                    else String c rest)) /\
          String c rest =
            (if attr_implied attr then "!" else EmptyString) +:+ name +:+
            (if attr_boolean attr then "." else EmptyString)
    | _ => attr_name attr = rendered /\ attr_boolean attr = false /\ attr_implied attr = false
    end.
Proof.
  unfold AbbreviationAttribute_init. intros H. mstep H as rendered s1 Hn.
  destruct rendered as [[|c nm]|].
  - apply ret_inv in H as [<- <-]. by exists (Some EmptyString).
  - exists (Some (String c nm)). cbv beta iota zeta in H.
    set (full := String c nm) in *.
    destruct (is_char "." (str_last full)) eqn:Eb; cbv iota in H.
    + pose proof (str_last_drop_last _ _ (is_char_eq _ _ Eb)) as Hdot.
      destruct (str_first (str_drop_last full)) as [c0|] eqn:Ef; [|done].
      pose proof (str_first_drop_first _ _ Ef) as Hfirst.
      destruct (Ascii.eqb c0 "!") eqn:Ec; apply ret_inv in H as [<- <-];
        cbv [attr_name attr_value attr_value_type attr_boolean attr_implied];
        (split; [done|]); (split; [done|]); (split; [done|]);
        eexists; (split; [done|]); (split; [done|]);
        (split; [rewrite Ef; simpl; by rewrite Ec|]).
      * apply Ascii.eqb_eq in Ec. subst c0. rewrite Hdot at 1. by rewrite Hfirst at 1.
      * by rewrite Hdot at 1.
    + destruct (str_first full) as [c0|] eqn:Ef; [|done].
      pose proof (str_first_drop_first _ _ Ef) as Hfirst.
      destruct (Ascii.eqb c0 "!") eqn:Ec; apply ret_inv in H as [<- <-];
        cbv [attr_name attr_value attr_value_type attr_boolean attr_implied];
        (split; [done|]); (split; [done|]); (split; [done|]);
        eexists; (split; [done|]); (split; [done|]);
        (split; [rewrite Ef; simpl; by rewrite Ec|]).
      * apply Ascii.eqb_eq in Ec. subst c0. rewrite append_nil_r. by rewrite Hfirst at 1.
      * by rewrite append_nil_r.
  - apply ret_inv in H as [<- <-]. by exists None.
Qed.

(** X6.  A value in expression brackets loses both brackets and has the
    value type [expression]; without the closing bracket the rest of the
    value is kept whole.  A value that opens with neither a quote nor an
    expression bracket is stringified whole, with the value type the flag
    of the token gives.  A missing or empty value stays absent. *)
Theorem convert_attribute_value :
  (forall name body expr s,
     convert_attribute stringify
       (mkTokenAttribute name
          (Some (Bracket true BExpression :: body ++ [Bracket false BExpression])) expr) s =
     (do attr <- AbbreviationAttribute_init stringify (mkTokenAttribute name None expr);
      do v <- stringify_value stringify body;
      ret (mkAttribute (attr_name attr) (Some v) expression
             (attr_boolean attr) (attr_implied attr))) s) /\
  (forall name body last_token expr s,
     is_bracket last_token BExpression false = false ->
     convert_attribute stringify
       (mkTokenAttribute name
          (Some (Bracket true BExpression :: body ++ [last_token])) expr) s =
     (do attr <- AbbreviationAttribute_init stringify (mkTokenAttribute name None expr);
      do v <- stringify_value stringify (body ++ [last_token]);
      ret (mkAttribute (attr_name attr) (Some v) expression
             (attr_boolean attr) (attr_implied attr))) s) /\
  (forall name first rest expr s,
     is_quote first = false -> is_bracket first BExpression true = false ->
     convert_attribute stringify (mkTokenAttribute name (Some (first :: rest)) expr) s =
     (do attr <- AbbreviationAttribute_init stringify (mkTokenAttribute name None expr);
      do v <- stringify_value stringify (first :: rest);
      ret (mkAttribute (attr_name attr) (Some v) (if expr then expression else raw)
             (attr_boolean attr) (attr_implied attr))) s) /\
  (forall name value expr s attr s',
     value = None \/ value = Some [] ->
     convert_attribute stringify (mkTokenAttribute name value expr) s = Ok attr s' ->
     attr_value attr = None).
Proof.
  split; [|split; [|split]].
  - intros name body expr s. unfold convert_attribute. simpl.
    by rewrite pop_last_if_snoc.
  - intros name body last_token expr s Hb. unfold convert_attribute. simpl.
    unfold pop_last_if. by rewrite last_snoc, Hb.
  - intros name first rest expr s Hq Hb. unfold convert_attribute. simpl.
    rewrite Hq, Hb. unfold bind.
    destruct (AbbreviationAttribute_init stringify _ s) as [attr s1|e] eqn:E; [|done].
    apply attribute_init_fields in E as [_ Hvt]. simpl in Hvt.
    by rewrite Hvt.
  - intros name value expr s attr s' Hv H. unfold convert_attribute in H.
    mstep H as attr0 s1 Hinit. apply attribute_init_fields in Hinit as [Hnone _].
    destruct Hv as [-> | ->]; simpl in H; by apply ret_inv in H as [<- _].
Qed.

End Attributes.

Section ElementAttributes.

Variable stringify : Token -> ConvertState -> string * ConvertState.

Lemma convert_attributes_each attrs : forall s out s',
  convert_attributes stringify attrs s = Ok out s' ->
  Forall2 (fun token attr => exists s1 s2, convert_attribute stringify token s1 = Ok attr s2)
    attrs out.
Proof.
  induction attrs as [|attr rest IH]; intros s out s' H; simpl in H.
  - apply ret_inv in H as [<- _]. constructor.
  - mstep H as a s1 Ha. mstep H as more s2 Hmore. apply ret_inv in H as [<- _].
    constructor; [by eexists _, _|by eapply IH].
Qed.

(** X7.  The node [convert_element] makes has one output attribute for
    every attribute token, in the order of the tokens, each of them what
    [convert_attribute] gives for the token; an element without attribute
    tokens, or with an empty list of them, gives a node without attribute
    list. *)
Theorem convert_element_attributes name value attributes elements repeat sc w ids w' :
  well_formed (w_store w) -> owned (w_store w) ->
  convert_element stringify (TokenElement name value attributes elements repeat sc) w
  = Ok ids w' ->
  exists e,
    w_store w' !! length (w_store w) = Some e /\
    match attributes with
    | Some (token :: tokens) =>
        exists out,
          n_attributes e = Some out /\
          length out = length (token :: tokens) /\
          Forall2 (fun token attr =>
                     exists s1 s2, convert_attribute stringify token s1 = Ok attr s2)
            (token :: tokens) out
    | _ => n_attributes e = None
    end.
Proof.
  intros Hwf Hown H. simpl in H. unfold convert_element_of in H.
  mstep H as elem w1 Hinit.
  apply AbbreviationNode_init_inv in Hinit as (n & Hn & Hattr & -> & Est).
  assert (Forall (fun child => store_safe (convert_statement stringify child)) elements) as Hel
    by (apply Forall_forall; intros child _; apply convert_statement_safe).
  assert (collecting (w_store w) (w_store w1) (length (w_store w))) as Hco
    by (rewrite Est; by apply collecting_start).
  mstep H as u2 w2 Hkids.
  destruct (convert_children_fields _ _ _ _ Hel w1 _ _ Hco Hkids) as (_ & _ & Ha).
  pose proof (convert_children_safe _ _ _ _ Hel w1 _ _ Hco Hkids) as Hco2.
  rewrite Est, list_lookup_total_middle, Hattr in Ha by done.
  pose proof (co_length _ _ _ Hco2) as Hlen.
  mstep H as u3 w3 Hattrs.
  mstep H as e w4 Hread. apply read_node_inv in Hread as [-> ->].
  assert (w' = w3) as -> by (destruct (text_only _); by apply ret_inv in H as [_ <-]).
  exists (w_store w3 !!! length (w_store w)).
  destruct attributes as [[|token tokens]|].
  - apply ret_inv in Hattrs as [_ <-].
    split; [apply list_lookup_lookup_total_lt; lia|done].
  - mstep Hattrs as out w5 Hconv. apply on_state_inv in Hconv as (s5 & Hconv & ->).
    apply update_node_inv in Hattrs as ->. simpl.
    split; [apply list_lookup_lookup_total_lt; rewrite length_alter; lia|].
    exists out. rewrite list_lookup_total_alter_eq by lia. split; [done|].
    apply convert_attributes_each in Hconv.
    split; [by apply Forall2_length in Hconv|done].
  - apply ret_inv in Hattrs as [_ <-].
    split; [apply list_lookup_lookup_total_lt; lia|done].
Qed.

End ElementAttributes.

(** ** The methods of the state *)

(** X8.  [get_text] records that the text was read and changes nothing else
    of the state.  It gives the line at the index, counted from the end for
    a negative index, the lines joined by newlines without index, the text
    itself when that is a string and the empty string when there is none.
    It fails, with IndexError, only for a list and an index outside it. *)
Theorem get_text_result pos s :
  match get_text pos s with
  | Ok v s' =>
      s' = set_text_inserted true s /\
      match text s, pos with
      | TextList lines, Some p =>
          (0 <= p < Z.of_nat (length lines) /\ lines !! Z.to_nat p = Some v) \/
          (- Z.of_nat (length lines) <= p < 0 /\
           lines !! Z.to_nat (Z.of_nat (length lines) + p) = Some v)
      | TextList lines, None => v = join newline lines
      | TextStr str, _ => v = str
      | TextNone, _ => v = EmptyString
      end
  | Raise e =>
      e = IndexError /\
      exists lines p,
        text s = TextList lines /\ pos = Some p /\
        (p < - Z.of_nat (length lines) \/ Z.of_nat (length lines) <= p)
  end.
Proof.
  unfold get_text, bind, modify, get. simpl.
  destruct (text s) as [|str|lines]; simpl; try done.
  destruct pos as [p|]; [|done]. unfold py_index.
  destruct ((0 <=? p) && (p <? Z.of_nat (length lines))) eqn:E1.
  - apply andb_true_iff in E1 as [H1%Z.leb_le H2%Z.ltb_lt].
    destruct (lines !! Z.to_nat p) as [v|] eqn:El.
    + simpl. split; [done|]. left. by split.
    + apply lookup_ge_None in El. lia.
  - destruct ((p <? 0) && (- Z.of_nat (length lines) <=? p)) eqn:E2.
    + apply andb_true_iff in E2 as [H1%Z.ltb_lt H2%Z.leb_le].
      destruct (lines !! Z.to_nat (Z.of_nat (length lines) + p)) as [v|] eqn:El.
      * simpl. split; [done|]. right. by split.
      * apply lookup_ge_None in El. lia.
    + simpl. split; [done|]. exists lines, p. split; [done|]. split; [done|].
      apply andb_false_iff in E1, E2.
      destruct E1 as [H1%Z.leb_gt|H1%Z.ltb_ge], E2 as [H2%Z.ltb_ge|H2%Z.leb_gt]; lia.
Qed.

(** X9.  [get_variable] leaves the state as it is.  It gives the value a
    name has in the variables and the name itself when the name is not a
    key: after a value was put under a name that value comes back, and the
    other names are as before.  On the state [convert] makes from options
    without variables it fails with AttributeError. *)
Theorem get_variable_lookup :
  (forall name d s, variables s = Some d -> d !! name = None ->
     get_variable name s = Ok name s) /\
  (forall name value d s, variables s = Some (<[name := value]> d) ->
     get_variable name s = Ok value s /\
     forall other, other <> name ->
       get_variable other s = Ok (default other (d !! other)) s) /\
  (forall name text max_repeat,
     get_variable name (initial_state (mkOptions text None max_repeat))
     = Raise AttributeError).
Proof.
  split; [|split].
  - intros name d s Hv Hn. unfold get_variable, bind, get. by rewrite Hv, Hn.
  - intros name value d s Hv. unfold get_variable, bind, get. rewrite Hv. split.
    + by rewrite lookup_insert_eq.
    + intros other Hne. by rewrite lookup_insert_ne.
  - done.
Qed.

Lemma get_variable_lookup_witness :
  get_variable "lang"
    (initial_state (mkOptions TextNone (Some (<["lang" := "en"]> ∅)) None))
  = Ok "en" (initial_state (mkOptions TextNone (Some (<["lang" := "en"]> ∅)) None)) /\
  get_variable "charset"
    (initial_state (mkOptions TextNone (Some (<["lang" := "en"]> ∅)) None))
  = Ok "charset" (initial_state (mkOptions TextNone (Some (<["lang" := "en"]> ∅)) None)).
Proof.
  destruct get_variable_lookup as (_ & H & _).
  destruct (H "lang" "en" ∅
              (initial_state (mkOptions TextNone (Some (<["lang" := "en"]> ∅)) None))
              eq_refl) as [H1 H2].
  split; [exact H1|]. by rewrite (H2 "charset").
Defined.

(** ** The helpers on output nodes *)

(** X10.  On a well-formed store [deepest_node] returns: the node it gives
    has no children, lies at or after the node it started from, and is what
    [deepest_node] gives for the last child of the start; for a node without
    children it is that node, so asking again from the answer changes
    nothing. *)
Theorem deepest_node_is_leaf node w :
  well_formed (w_store w) -> (node < length (w_store w))%nat ->
  exists d,
    deepest_node node w = Ok d w /\
    (node <= d < length (w_store w))%nat /\
    n_children (w_store w !!! d) = [] /\
    deepest_node d w = Ok d w /\
    (n_children (w_store w !!! node) = [] -> d = node) /\
    (forall child, last (n_children (w_store w !!! node)) = Some child ->
       deepest_node child w = Ok d w).
Proof.
  intros Hwf Hn. destruct (deepest_node_total node w Hwf Hn) as (d & Hd & Hleaf).
  destruct (deepest_leaf_below _ _ _ Hwf Hleaf) as (Hle & Hnil & Hlt).
  exists d. split; [done|]. split; [lia|]. split; [done|]. split; [|split].
  - destruct (deepest_node_total d w Hwf (Hlt Hn)) as (d' & Hd' & Hleaf').
    rewrite Hd'. f_equal. eapply deepest_leaf_unique; [exact Hleaf'|]. by apply deepest_here.
  - intros Hnode. eapply deepest_leaf_unique; [exact Hleaf|]. by apply deepest_here.
  - intros child Hchild.
    pose proof (last_Some_elem_of _ _ Hchild) as Hin. apply Hwf in Hin.
    destruct (deepest_node_total child w Hwf) as (d' & Hd' & Hleaf'); [lia|].
    rewrite Hd'. f_equal. eapply deepest_leaf_unique; [exact Hleaf'|].
    destruct Hleaf as [node Hnode|node child' d Hc Hleaf]; [by rewrite Hnode in Hchild|].
    by simplify_eq.
Qed.

Lemma alternates_last_str v str1 str2 :
  alternates (v ++ [SegStr str1]) = alternates (v ++ [SegStr str2]).
Proof.
  induction v as [|[str|token] v IH]; simpl; [done| |done].
  destruct v as [|[str'|token'] v]; simpl in *; done.
Qed.

(** What [insert_text] does to a value list. *)
Lemma insert_text_node_segments tx n :
  exists v,
    n_value (insert_text_node tx n) = Some v /\
    seg_text v = seg_text (default [] (n_value n)) +:+ tx /\
    seg_fields v = seg_fields (default [] (n_value n)) /\
    (alternates (default [] (n_value n)) = true -> alternates v = true) /\
    exists body str, v = body ++ [SegStr str].
Proof.
  unfold insert_text_node. destruct (n_value n) as [v|].
  2: { exists [SegStr tx]. simpl. rewrite append_nil_r. split_and!; try done. by exists [], tx. }
  destruct v as [|seg segs _] using rev_ind.
  { exists [SegStr tx]. simpl. rewrite append_nil_r. split_and!; try done. by exists [], tx. }
  destruct (segs ++ [seg]) as [|seg0 segs0] eqn:E; [by destruct segs|].
  rewrite <- E. rewrite last_snoc. simpl.
  destruct seg as [str|token].
  - rewrite removelast_last. eexists. split; [done|].
    rewrite !seg_text_app, !seg_fields_app. simpl.
    rewrite !append_nil_r, append_assoc. split_and!; try done.
    + by rewrite (alternates_last_str segs (str +:+ tx) str).
    + by eexists _, _.
  - eexists. split; [done|].
    rewrite !seg_text_app, !seg_fields_app. simpl.
    rewrite !append_nil_r, app_nil_r. split_and!; try done.
    + intros Ha. rewrite alternates_snoc_str; [done|]. by rewrite last_snoc.
    + by eexists _, _.
Qed.

(** X11.  [insert_text] changes the value of one node and nothing else: the
    state, the other nodes and the other fields of the node are as before.
    The text of the value is the old text followed by the inserted text,
    the fields of the value are untouched, and a value without two strings
    in a row stays so. *)
Theorem insert_text_appends d tx w :
  exists w',
    insert_text d tx w = Ok tt w' /\
    w_state w' = w_state w /\
    length (w_store w') = length (w_store w) /\
    (forall a, a <> d -> w_store w' !! a = w_store w !! a) /\
    (forall n, w_store w !! d = Some n ->
       exists n' v,
         w_store w' !! d = Some n' /\
         n_name n' = n_name n /\ n_repeat n' = n_repeat n /\
         n_attributes n' = n_attributes n /\ n_children n' = n_children n /\
         n_self_closing n' = n_self_closing n /\
         n_value n' = Some v /\
         seg_text v = seg_text (default [] (n_value n)) +:+ tx /\
         seg_fields v = seg_fields (default [] (n_value n)) /\
         (alternates (default [] (n_value n)) = true -> alternates v = true)).
Proof.
  eexists. split; [reflexivity|]. simpl. split; [done|]. split; [apply length_alter|].
  split; [intros a Ha; by apply list_lookup_alter_ne|].
  intros n Hn. destruct (insert_text_node_segments tx n) as (v & Hv & Ht & Hf & Ha & _).
  exists (insert_text_node tx n), v. rewrite list_lookup_alter_eq, Hn. simpl.
  split; [done|].
  assert (forall v', set_value v' n = mkNode (n_name n) v' (n_repeat n) (n_attributes n)
                                       (n_children n) (n_self_closing n)) as Hset by done.
  unfold insert_text_node in *.
  destruct (n_value n) as [[|seg segs]|]; try (by repeat split).
  destruct (last (seg :: segs)) as [[?|?]|]; by repeat split.
Qed.

Lemma alter_twice {A} (f g : A -> A) i (l : list A) :
  alter f i (alter g i l) = alter (fun x => f (g x)) i l.
Proof.
  apply list_eq. intros j. rewrite !list_lookup_alter.
  repeat case_decide; try done. by destruct (l !! i).
Qed.

Lemma insert_text_node_set_value tx n :
  insert_text_node tx n = set_value (n_value (insert_text_node tx n)) n.
Proof.
  unfold insert_text_node. destruct (n_value n) as [[|seg segs]|]; [done| |done].
  by destruct (last (seg :: segs)) as [[?|?]|].
Qed.

Lemma insert_text_node_twice_value tx1 tx2 n :
  n_value (insert_text_node tx2 (insert_text_node tx1 n)) =
  n_value (insert_text_node (tx1 +:+ tx2) n).
Proof.
  destruct (insert_text_node_value tx1 n) as (Hs1 & Hf1 & Hn1).
  destruct (insert_text_node_value (tx1 +:+ tx2) n) as (Hs & Hf & Hn).
  destruct (insert_text_node_value tx2 (insert_text_node tx1 n)) as (Hs2 & _).
  destruct (n_value n) as [v|] eqn:Ev.
  - destruct v as [|seg segs _] using rev_ind.
    + rewrite Hn by auto. apply (Hs2 []). by rewrite Hn1 by auto.
    + destruct seg as [str|token].
      * rewrite (Hs segs str eq_refl).
        rewrite (Hs2 segs (str +:+ tx1)); [by rewrite append_assoc|].
        by apply Hs1.
      * rewrite (Hf segs token eq_refl).
        rewrite (Hs2 (segs ++ [SegField token]) tx1); [by rewrite <- app_assoc|].
        rewrite (Hf1 segs token eq_refl). by rewrite <- app_assoc.
  - rewrite Hn by auto. apply (Hs2 []). by rewrite Hn1 by auto.
Qed.

Lemma insert_text_node_twice tx1 tx2 n :
  insert_text_node tx2 (insert_text_node tx1 n) = insert_text_node (tx1 +:+ tx2) n.
Proof.
  rewrite (insert_text_node_set_value tx2 (insert_text_node tx1 n)).
  rewrite insert_text_node_twice_value.
  rewrite (insert_text_node_set_value (tx1 +:+ tx2) n) at 2.
  rewrite (insert_text_node_set_value tx1 n) at 1.
  done.
Qed.

(** X12.  Inserting one text and then another into a node is inserting the
    two texts put together. *)
Theorem insert_text_twice d tx1 tx2 w :
  (do _ <- insert_text d tx1; insert_text d tx2) w = insert_text d (tx1 +:+ tx2) w.
Proof.
  unfold insert_text, update_node, bind, modify. simpl. f_equal. f_equal.
  rewrite alter_twice. apply list_alter_ext; [|done].
  intros n _. apply insert_text_node_twice.
Qed.

(** ** Repeaters on the nodes of a group *)

Lemma attach_one_idem r1 r2 n : attach_one r2 (attach_one r1 n) = attach_one r1 n.
Proof. unfold attach_one. by destruct n as [? ? [r|] ? ? ?]. Qed.

Lemma attach_one_repeat r n :
  n_repeat (attach_one r n) = Some (default r (n_repeat n)).
Proof. unfold attach_one. destruct n as [? ? [r0|] ? ? ?]; simpl; [done|]. by destruct r. Qed.

Lemma attach_loop_spec repeater items : forall w,
  exists w',
    attach_loop items repeater w = Ok tt w' /\
    w_state w' = w_state w /\
    length (w_store w') = length (w_store w) /\
    (forall a, a ∉ items -> w_store w' !! a = w_store w !! a) /\
    (forall a, a ∈ items -> w_store w' !! a = attach_one repeater <$> w_store w !! a).
Proof.
  induction items as [|item rest IH]; intros w.
  - exists w. split_and!; try done. intros a Ha. by apply elem_of_nil in Ha.
  - simpl. unfold bind at 1, update_node, modify.
    destruct (IH (mkWorld (w_state w) (alter (attach_one repeater) item (w_store w))))
      as (w' & E & Hs & Hl & Hout & Hin).
    simpl in *. exists w'. split; [done|]. split; [done|].
    split; [by rewrite Hl, length_alter|]. split.
    + intros a Ha. apply not_elem_of_cons in Ha as [Hne Ha].
      rewrite Hout by done. by apply list_lookup_alter_ne.
    + intros a Ha. destruct (decide (a ∈ rest)) as [Hrest|Hrest].
      * rewrite Hin by done. rewrite list_lookup_alter.
        case_decide as Heq; [|done]. subst a. destruct (w_store w !! item); simpl; [|done].
        by rewrite attach_one_idem.
      * apply elem_of_cons in Ha as [->|Ha]; [|done].
        rewrite Hout by done. by rewrite list_lookup_alter_eq.
Qed.

(** X13.  [attach_repeater] gives back the list it was given.  Every node of
    the list that had no repeater has a copy of the given one afterwards, a
    node that had one keeps its own, and nothing else changes: not the
    state, not the other fields of the nodes, not the nodes outside the
    list.  Attaching another repeater to the same list afterwards has no
    effect. *)
Theorem attach_repeater_result items repeater w :
  exists w',
    attach_repeater items repeater w = Ok items w' /\
    w_state w' = w_state w /\
    length (w_store w') = length (w_store w) /\
    (forall a, a ∉ items -> w_store w' !! a = w_store w !! a) /\
    (forall a n, a ∈ items -> w_store w !! a = Some n ->
       w_store w' !! a = Some (set_repeat (Some (default repeater (n_repeat n))) n)) /\
    (forall other, attach_repeater items other w' = Ok items w').
Proof.
  destruct (attach_loop_spec repeater items w) as (w' & E & Hs & Hl & Hout & Hin).
  exists w'. unfold attach_repeater. rewrite (bind_ok _ _ _ _ _ E).
  split; [done|]. split; [done|]. split; [done|]. split; [done|]. split.
  - intros a n Ha Hn. rewrite Hin, Hn by done. simpl. f_equal.
    unfold attach_one. destruct n as [? ? [r|] ? ? ?]; simpl; [done|]. by destruct repeater.
  - intros other.
    destruct (attach_loop_spec other items w') as (w2 & E2 & Hs2 & Hl2 & Hout2 & Hin2).
    rewrite (bind_ok _ _ _ _ _ E2). unfold ret. f_equal.
    destruct w' as [s' st'], w2 as [s2 st2]. simpl in *. f_equal; [done|].
    apply list_eq. intros a. destruct (decide (a ∈ items)) as [Ha|Ha].
    + rewrite Hin2, Hin by done. destruct (w_store w !! a); simpl; [|done].
      by rewrite attach_one_idem.
    + by apply Hout2.
Qed.

(** ** The exceptions of a conversion *)

Lemma bind_raise {S A B} (m : M S A) (k : A -> M S B) s e :
  bind m k s = Raise e ->
  m s = Raise e \/ exists a s', m s = Ok a s' /\ k a s' = Raise e.
Proof.
  unfold bind. destruct (m s) as [a s'|e']; intros H.
  - right. by exists a, s'.
  - left. by simplify_eq.
Qed.

Tactic Notation "rstep" hyp(H) "as" ident(a) ident(w) ident(H1) :=
  apply bind_raise in H as [H|(a & w & H1 & H)].

Lemma on_state_raise {A} (m : M ConvertState A) w e :
  on_state m w = Raise e -> m (w_state w) = Raise e.
Proof. unfold on_state. destruct (m (w_state w)); intros H; by simplify_eq. Qed.

Lemma expected_evolves e s0 s1 : evolves s0 s1 -> expected e s1 -> expected e s0.
Proof.
  intros Hev [->|[-> Hg]]; [by left|]. right. split; [done|].
  pose proof (ev_guard _ _ Hev) as Hle. rewrite Hg in Hle. by destruct (repeat_guard s0).
Qed.

Lemma expected_in_loop e s0 s1 : in_loop s0 s1 -> expected e s1 -> expected e s0.
Proof.
  intros Hl [->|[-> Hg]]; [by left|]. right. split; [done|].
  pose proof (il_guard _ _ Hl) as Hle. rewrite Hg in Hle. by destruct (repeat_guard s0).
Qed.

Lemma get_text_raises pos s e : get_text pos s = Raise e -> e = IndexError.
Proof.
  unfold get_text, bind, modify, get. simpl.
  destruct (text s) as [|str|lines]; [done..|].
  destruct pos as [p|]; [|done]. destruct (py_index lines p); [done|].
  unfold raise. intros H. by simplify_eq.
Qed.

Lemma decrement_guard_raises w e :
  decrement_guard w = Raise e -> e = TypeError /\ repeat_guard (w_state w) = None.
Proof.
  intros H. apply on_state_raise in H. unfold bind, get in H.
  destruct (repeat_guard (w_state w)); [done|]. unfold raise in H. by simplify_eq.
Qed.

Section Exceptions.

Variable stringify : Token -> ConvertState -> string * ConvertState.
Hypothesis stringify_ok : flags_only stringify.

Lemma name_or_none_total tokens s :
  exists nm s', name_or_none stringify tokens s = Ok nm s'.
Proof.
  destruct (renders_name_or_none stringify stringify_ok tokens s) as (nm & s' & E & _).
  by eexists _, _.
Qed.

Lemma value_or_none_total tokens s :
  exists v s', value_or_none stringify tokens s = Ok v s'.
Proof.
  destruct (renders_value_or_none stringify stringify_ok tokens s) as (v & s' & E & _).
  by eexists _, _.
Qed.

Lemma stringify_value_total tokens s :
  exists v s', stringify_value stringify tokens s = Ok v s'.
Proof.
  destruct (stringify_value_loop_spec stringify tokens [] [] s) as (v & parts & s' & E & _);
    [done..|].
  by eexists _, _.
Qed.

Lemma AbbreviationNode_init_total name value repeat sc w :
  exists elem w', AbbreviationNode_init stringify name value repeat sc w = Ok elem w'.
Proof.
  unfold AbbreviationNode_init.
  destruct (name_or_none_total name (w_state w)) as (nm & s1 & E1).
  destruct (value_or_none_total value s1) as (v & s2 & E2).
  unfold bind, on_state, alloc. rewrite E1. simpl. rewrite E2. by eexists _, _.
Qed.

Lemma attribute_init_raises node s e :
  AbbreviationAttribute_init stringify node s = Raise e -> e = IndexError.
Proof.
  unfold AbbreviationAttribute_init. intros H. rstep H as nm s1 Hn.
  - destruct (name_or_none_total (tattr_name node) s) as (? & ? & E). congruence.
  - destruct nm as [[|c nm]|]; [done| |done]. cbv beta iota zeta in H.
    destruct (str_first _); [|unfold raise in H; by simplify_eq].
    by destruct (Ascii.eqb _ _).
Qed.

Lemma convert_attribute_raises node s e :
  convert_attribute stringify node s = Raise e -> e = IndexError.
Proof.
  unfold convert_attribute. intros H. rstep H as attr s1 Hinit.
  { by eapply attribute_init_raises. }
  exfalso. destruct (tattr_value node) as [[|first rest]|]; [done| |done].
  destruct (is_quote first); [|destruct (is_bracket first BExpression true)];
    (rstep H as v s2 Hv; [|done]);
    match type of H with
    | stringify_value _ ?t ?s = _ =>
        destruct (stringify_value_total t s) as (? & ? & E); congruence
    end.
Qed.

Lemma convert_attributes_raises attrs : forall s e,
  convert_attributes stringify attrs s = Raise e -> e = IndexError.
Proof.
  induction attrs as [|attr rest IH]; intros s e H; simpl in H; [done|].
  rstep H as a s1 Ha; [by eapply convert_attribute_raises|].
  rstep H as more s2 Hmore; [by eapply IH|done].
Qed.

Lemma attach_repeater_total items repeater w :
  exists w', attach_repeater items repeater w = Ok items w'.
Proof.
  destruct (attach_loop_spec repeater items w) as (w' & E & _).
  exists w'. unfold attach_repeater. by rewrite (bind_ok _ _ _ _ _ E).
Qed.

Section Inside.

Variable rec : TokenNode -> M World (list nat).
Hypothesis rec_safe : forall child, store_safe (rec child).
Hypothesis rec_evolves : forall child, world_evolves (rec child).

Lemma convert_children_raises st0 elem elements :
  Forall (fun child => raises_expected (rec child)) elements ->
  forall w e,
    collecting st0 (w_store w) elem ->
    convert_children rec elem elements w = Raise e -> expected e (w_state w).
Proof.
  induction 1 as [|child rest Hc _ IH]; intros w e Hco H; simpl in H; [done|].
  rstep H as items w1 Hchild.
  - eapply Hc; [apply Hco|apply Hco|done].
  - rstep H as u w2 Hup; [done|]. apply update_node_inv in Hup as ->.
    pose proof (rec_safe _ _ _ _ (co_wf _ _ _ Hco) (co_owned _ _ _ Hco) Hchild) as Hs.
    pose proof (collecting_add _ _ _ _ _ Hco Hs) as Hco2.
    apply (expected_evolves _ _ _ (rec_evolves _ _ _ _ Hchild)).
    by apply (IH (mkWorld (w_state w1) (alter (add_children items) elem (w_store w1)))
                 e Hco2 H).
Qed.

Lemma convert_element_of_raises name value attributes elements repeat sc :
  Forall (fun child => raises_expected (rec child)) elements ->
  raises_expected (convert_element_of stringify rec name value attributes elements repeat sc).
Proof.
  intros Hel w e Hwf Hown H. unfold convert_element_of in H.
  rstep H as elem w1 Hinit.
  { destruct (AbbreviationNode_init_total name value repeat sc w) as (? & ? & E). congruence. }
  pose proof (world_evolves_init stringify stringify_ok _ _ _ _ _ _ _ Hinit) as Hev1.
  apply (expected_evolves _ _ _ Hev1).
  apply AbbreviationNode_init_inv in Hinit as (n & Hn & _ & -> & Est).
  pose proof (collecting_start _ n Hwf Hown Hn) as Hco. rewrite <- Est in Hco.
  rstep H as u2 w2 Hkids.
  { by eapply convert_children_raises. }
  left. rstep H as u3 w3 Hattrs.
  - destruct attributes as [[|attr attrs]|]; [done| |done].
    rstep H as conv w4 Hconv; [|done].
    apply on_state_raise in H. by eapply convert_attributes_raises.
  - rstep H as e' w4 Hread; [done|]. by destruct (text_only e').
Qed.

Lemma convert_statements_raises elements :
  Forall (fun child => raises_expected (rec child)) elements ->
  forall result st0 w e,
    store_step st0 (w_store w) result ->
    convert_statements rec elements result w = Raise e -> expected e (w_state w).
Proof.
  induction 1 as [|child rest Hc _ IH]; intros result st0 w e Hs H; simpl in H; [done|].
  rstep H as items w1 Hchild.
  - eapply Hc; [apply Hs|apply Hs|done].
  - apply (expected_evolves _ _ _ (rec_evolves _ _ _ _ Hchild)).
    eapply IH; [|exact H].
    eapply store_step_trans; [exact Hs|].
    eapply rec_safe; [apply Hs|apply Hs|done].
Qed.

Lemma convert_group_of_raises elements repeat :
  Forall (fun child => raises_expected (rec child)) elements ->
  raises_expected (convert_group_of rec elements repeat).
Proof.
  intros Hel w e Hwf Hown H. unfold convert_group_of in H.
  rstep H as result w1 Hres.
  - eapply convert_statements_raises; [done|by apply store_step_refl|done].
  - exfalso. destruct repeat as [repeater|]; [|done].
    destruct (attach_repeater_total result repeater w1) as (? & E). congruence.
Qed.

End Inside.

Lemma repeat_iteration_raises body repeat i :
  (forall r, store_safe (body r)) -> (forall r, raises_expected (body r)) ->
  raises_expected (repeat_iteration body repeat i).
Proof.
  intros Hsafe Hraise w e Hwf Hown H. unfold repeat_iteration in H.
  rstep H as u1 w1 Htop; [done|]. unfold modify in Htop. simplify_eq.
  rstep H as items w2 Hb.
  { apply Hraise in H; [|done..]. destruct H as [->|[-> Hg]]; [by left|by right]. }
  left. apply Hsafe in Hb; [|done..]. simpl in Hb.
  rstep H as w2' w3 Hget; [done|]. apply get_inv in Hget as [-> ->].
  rstep H as u4 w4 Hins; [|done].
  destruct (rep_implicit _ && negb _); [|done].
  destruct (last items) as [target|] eqn:El; [|unfold raise in H; by simplify_eq].
  rstep H as d w5 Hd.
  { exfalso. apply last_Some_elem_of, (ss_range _ _ _ Hb) in El.
    destruct (deepest_node_total target w2 (ss_wf _ _ _ Hb)) as (d & Hd & _); [lia|].
    congruence. }
  rstep H as tx w6 Htx; [|done].
  apply on_state_raise in H. by eapply get_text_raises.
Qed.

Lemma unroll_raises body repeat s0 :
  (forall r, store_safe (body r)) -> (forall r, world_evolves (body r)) ->
  (forall r, raises_expected (body r)) ->
  forall remaining i result st0 w e,
    store_step st0 (w_store w) result -> in_loop s0 (w_state w) ->
    unroll body repeat remaining i result w = Raise e -> expected e s0.
Proof.
  intros Hsafe Hev Hraise.
  induction remaining as [|remaining IH]; intros i result st0 w e Hs Hl H; simpl in H; [done|].
  rstep H as items w1 Hit.
  { apply (expected_in_loop _ _ _ Hl).
    eapply repeat_iteration_raises; [done|done|apply Hs|apply Hs|done]. }
  assert (in_loop s0 (w_state w1)) as Hl1 by (by eapply repeat_iteration_in_loop).
  apply repeat_iteration_safe in Hit; [|done|apply Hs..].
  pose proof (store_step_trans _ _ _ _ _ Hs Hit) as Hs1.
  rstep H as guard w2 Hg.
  { apply (expected_in_loop _ _ _ Hl1). right. by apply decrement_guard_raises. }
  pose proof (in_loop_evolves _ _ _ Hl1 (world_evolves_decrement _ _ _ Hg)) as Hl2.
  apply on_state_store in Hg. rewrite <- Hg in Hs1.
  destruct (guard <=? 0); [done|]. by eapply IH.
Qed.

Lemma unroll_statement_raises body original :
  (forall r, store_safe (body r)) -> (forall r, world_evolves (body r)) ->
  (forall r, raises_expected (body r)) ->
  raises_expected (unroll_statement body original).
Proof.
  intros Hsafe Hev Hraise w e Hwf Hown H. unfold unroll_statement in H.
  rstep H as w0 w1 Hget; [done|]. apply get_inv in Hget as [-> ->].
  rstep H as u2 w2 Hpush; [done|].
  unfold push_repeater, on_state, modify in Hpush. simplify_eq.
  match type of H with bind _ _ ?w0 = _ => set (w2 := w0) in * end.
  assert (in_loop (w_state w) (w_state w2)) as Hl
    by (split; simpl; try done; [by eexists|apply guard_le_refl]).
  rstep H as result w3 Hun.
  { eapply unroll_raises; [done..| |exact Hl|exact H]. simpl. by apply store_step_refl. }
  exfalso. eapply unroll_in_loop in Hun; [|done|exact Hl].
  destruct Hun as [_ _ [top R] _ _ _].
  rstep H as u4 w4 Hpop.
  - apply on_state_raise in H. unfold bind, get in H. rewrite R in H.
    by destruct (repeaters (w_state w) ++ [top]) eqn:E; [destruct (repeaters (w_state w))|].
  - rstep H as u5 w5 Hflag; [|done].
    destruct (rep_implicit _); [by apply on_state_raise in H|done].
Qed.

Lemma convert_statement_raises node : raises_expected (convert_statement stringify node).
Proof.
  induction node as [elements repeat IH|name value attributes elements repeat sc IH]
    using TokenNode_nested_ind; rewrite convert_statement_eq; simpl.
  - destruct repeat as [original|].
    + apply unroll_statement_raises; intros r.
      * apply (statement_body_safe stringify (TokenGroup elements (Some original)) r).
      * apply (statement_body_evolves stringify stringify_ok
                 (TokenGroup elements (Some original)) r).
      * apply convert_group_of_raises; [apply convert_statement_safe| |done].
        by apply convert_statement_evolves.
    + apply convert_group_of_raises; [apply convert_statement_safe| |done].
      by apply convert_statement_evolves.
  - destruct repeat as [original|].
    + apply unroll_statement_raises; intros r.
      * apply (statement_body_safe stringify
                 (TokenElement name value attributes elements (Some original) sc) r).
      * apply (statement_body_evolves stringify stringify_ok
                 (TokenElement name value attributes elements (Some original) sc) r).
      * apply convert_element_of_raises; [apply convert_statement_safe| |done].
        by apply convert_statement_evolves.
    + apply convert_element_of_raises; [apply convert_statement_safe| |done].
      by apply convert_statement_evolves.
Qed.

Lemma convert_group_raises node : raises_expected (convert_group stringify node).
Proof.
  apply convert_group_of_raises;
    [apply convert_statement_safe|by apply convert_statement_evolves|].
  apply Forall_forall. intros child _. apply convert_statement_raises.
Qed.

End Exceptions.

Section ConvertExceptions.

Variable stringify : Token -> ConvertState -> string * ConvertState.

(** X14.  With a renderer that reads the state and at most sets the two
    flags, [convert] raises nothing but IndexError and TypeError, and
    TypeError only when the options give no [max_repeat]: no attribute of a
    missing object is read, the search for the deepest node always ends,
    the line of the text an implicit repeater asks for is there, and the
    stack of repeaters is never popped when empty. *)
Theorem convert_raises abbr options e :
  flags_only stringify ->
  convert stringify abbr options = Raise e ->
  e = IndexError \/ (e = TypeError /\ opt_max_repeat options = None).
Proof.
  intros Hok H. unfold convert in H.
  rstep H as children w1 Hg.
  { apply (convert_group_raises stringify Hok) in H;
      [exact H|apply well_formed_nil|apply owned_nil]. }
  left. apply convert_group_safe in Hg; [|apply well_formed_nil|apply owned_nil].
  simpl in Hg.
  rstep H as w1' w2 Hget; [done|]. apply get_inv in Hget as [-> ->].
  rstep H as u3 w3 Hins; [|done].
  destruct (is_not_none _ && negb _); [|done].
  destruct (last children) as [target|] eqn:El; [|unfold raise in H; by simplify_eq].
  rstep H as d w4 Hd; [|done].
  exfalso. apply last_Some_elem_of, (ss_range _ _ _ Hg) in El.
  destruct (deepest_node_total target w1 (ss_wf _ _ _ Hg)) as (d & Hd & _); [lia|].
  congruence.
Qed.

End ConvertExceptions.

(** [a*2] without [max_repeat]: the TypeError of the guard. *)
Lemma convert_raises_witness :
  TypeError = IndexError \/
  (TypeError = TypeError /\ opt_max_repeat (options_of TextNone None) = None).
Proof.
  apply (convert_raises sample_stringify (TokenGroup [tag_times "a" 2] None)
           (options_of TextNone None) TypeError sample_stringify_flags_only).
  vm_compute. reflexivity.
Defined.

(** ** What a statement does to the store and to the state *)

Section StatementInvariants.

Variable stringify : Token -> ConvertState -> string * ConvertState.

(** X15.  A statement works on nodes of its own: every node that was in the
    store before it ran is there unchanged afterwards, the nodes it returns
    were made by it, and the store it leaves is well formed and owned
    again, so that the next statement finds what this one found. *)
Theorem convert_statement_frame node w ids w' :
  well_formed (w_store w) -> owned (w_store w) ->
  convert_statement stringify node w = Ok ids w' ->
  (forall a n, w_store w !! a = Some n -> w_store w' !! a = Some n) /\
  (forall id, id ∈ ids -> (length (w_store w) <= id < length (w_store w'))%nat) /\
  well_formed (w_store w') /\ owned (w_store w').
Proof.
  intros Hwf Hown H. apply convert_statement_safe in H; [|done..].
  split; [|split; [|split]]; try apply H.
  intros a n Ha. rewrite (ss_frame _ _ _ H); [done|]. by eapply lookup_lt_Some.
Qed.

(** X16.  A statement leaves the stack of repeaters as it found it: what it
    pushes for a repeated node it pops again.  The text and the variables
    are never assigned, and once the text was read, [_text_inserted] stays
    true. *)
Theorem convert_statement_state node w ids w' :
  flags_only stringify ->
  convert_statement stringify node w = Ok ids w' ->
  repeaters (w_state w') = repeaters (w_state w) /\
  text (w_state w') = text (w_state w) /\
  variables (w_state w') = variables (w_state w) /\
  (_text_inserted (w_state w) = true -> _text_inserted (w_state w') = true).
Proof.
  intros Hok H. apply (convert_statement_evolves stringify Hok) in H.
  by destruct H.
Qed.

Lemma convert_statements_acc rec elements : forall result w,
  convert_statements rec elements result w =
  (do items <- convert_statements rec elements []; ret (result ++ items)) w.
Proof.
  induction elements as [|child rest IH]; intros result w; simpl.
  - unfold bind, ret. by rewrite app_nil_r.
  - unfold bind at 1 2 3. destruct (rec child w) as [items w1|e]; [|done].
    rewrite IH. rewrite (IH ([] ++ items)). unfold bind, ret.
    destruct (convert_statements rec rest [] w1) as [more w2|e]; [|done].
    by rewrite app_assoc.
Qed.

Lemma convert_statements_app rec elements1 elements2 : forall result w,
  convert_statements rec (elements1 ++ elements2) result w =
  (do items <- convert_statements rec elements1 result;
   convert_statements rec elements2 items) w.
Proof.
  induction elements1 as [|child rest IH]; intros result w; simpl; [done|].
  unfold bind at 1 2 3. destruct (rec child w) as [items w1|e]; [|done].
  by rewrite IH.
Qed.

(** X17.  A group without repeater converts its statements from left to
    right and returns their nodes one after the other: the group of two
    lists of statements in a row gives the nodes of the first list followed
    by the nodes of the second, converted in the world the first leaves.
    A group of one statement gives what the statement gives, an empty
    group gives nothing and changes nothing. *)
Theorem convert_group_app elements1 elements2 node w :
  convert_group stringify (TokenGroup (elements1 ++ elements2) None) w =
  (do items1 <- convert_group stringify (TokenGroup elements1 None);
   do items2 <- convert_group stringify (TokenGroup elements2 None);
   ret (items1 ++ items2)) w /\
  convert_group stringify (TokenGroup [node] None) w = convert_statement stringify node w /\
  convert_group stringify (TokenGroup [] None) w = Ok [] w.
Proof.
  unfold convert_group, convert_group_of. simpl. split; [|split]; [| |done].
  - unfold bind at 1. rewrite convert_statements_app. unfold bind.
    destruct (convert_statements _ elements1 [] w) as [items1 w1|e]; [|done].
    unfold ret at 1 2. rewrite convert_statements_acc. unfold bind, ret.
    by destruct (convert_statements _ elements2 [] w1).
  - unfold bind, ret. by destruct (convert_statement stringify node w).
Qed.

(** X18.  When the root group gives no node at all, as the empty
    abbreviation does, [convert] fails with IndexError if a text was given
    that no statement has read: it asks for the last top-level node.
    Without a text, or with a text that was read, it returns the
    abbreviation without children. *)
Theorem convert_no_nodes abbr options w1 :
  convert_group stringify abbr (mkWorld (initial_state options) []) = Ok [] w1 ->
  convert stringify abbr options =
    (if is_not_none (opt_text options) && negb (_text_inserted (w_state w1))
     then Raise IndexError else Ok (mkAbbreviation []) w1) /\
  (forall repeat,
     convert stringify (TokenGroup [] repeat) options =
     if is_not_none (opt_text options) then Raise IndexError
     else Ok (mkAbbreviation []) (mkWorld (initial_state options) [])).
Proof.
  intros Hg. split.
  - unfold convert. rewrite (bind_ok _ _ _ _ _ Hg). unfold bind at 1, get.
    by destruct (is_not_none _ && negb _).
  - intros repeat. unfold convert.
    assert (convert_group stringify (TokenGroup [] repeat) (mkWorld (initial_state options) [])
            = Ok [] (mkWorld (initial_state options) [])) as E by (by destruct repeat).
    rewrite (bind_ok _ _ _ _ _ E). unfold bind at 1, get. simpl.
    by destruct (is_not_none _).
Qed.

End StatementInvariants.

(** [a*3] on the empty store. *)
Lemma convert_statement_frame_witness :
  match convert_statement sample_stringify (tag_times "a" 3) (start TextNone (Some 10)) with
  | Ok ids w' =>
      (forall a n, w_store (start TextNone (Some 10)) !! a = Some n ->
         w_store w' !! a = Some n) /\
      (forall id, id ∈ ids ->
         (length (w_store (start TextNone (Some 10%Z))) <= id < length (w_store w'))%nat) /\
      well_formed (w_store w') /\ owned (w_store w')
  | Raise _ => False
  end.
Proof.
  destruct (convert_statement sample_stringify (tag_times "a" 3) (start TextNone (Some 10)))
    as [ids w'|e] eqn:E.
  - exact (convert_statement_frame sample_stringify (tag_times "a" 3)
             (start TextNone (Some 10)) ids w' well_formed_nil owned_nil E).
  - vm_compute in E. discriminate E.
Defined.

Lemma convert_statement_state_witness :
  match convert_statement sample_stringify (tag_times "a" 3) (start TextNone (Some 10)) with
  | Ok ids w' =>
      repeaters (w_state w') = repeaters (w_state (start TextNone (Some 10))) /\
      text (w_state w') = text (w_state (start TextNone (Some 10))) /\
      variables (w_state w') = variables (w_state (start TextNone (Some 10))) /\
      (_text_inserted (w_state (start TextNone (Some 10))) = true ->
       _text_inserted (w_state w') = true)
  | Raise _ => False
  end.
Proof.
  destruct (convert_statement sample_stringify (tag_times "a" 3) (start TextNone (Some 10)))
    as [ids w'|e] eqn:E.
  - exact (convert_statement_state sample_stringify _ _ _ _ sample_stringify_flags_only E).
  - vm_compute in E. discriminate E.
Defined.

(** The empty abbreviation with the text [x]. *)
Lemma convert_no_nodes_witness :
  convert sample_stringify (TokenGroup [] None) (options_of (TextStr "x") (Some 10))
  = Raise IndexError.
Proof.
  apply (convert_no_nodes sample_stringify (TokenGroup [] None)
           (options_of (TextStr "x") (Some 10))
           (start (TextStr "x") (Some 10)) eq_refl).
Defined.

(** ** The helper [some] *)

(** X19.  [some] is true exactly when the test holds for an item of the
    list, so it is false for the empty list, and over two lists in a row it
    is true when it is for one of them. *)
Theorem some_exists {A} (items more : list A) (fn : A -> bool) :
  (some items fn = true <-> exists item, item ∈ items /\ fn item = true) /\
  some (items ++ more) fn = some items fn || some more fn /\
  some (@nil A) fn = false.
Proof.
  split; [|split; [|done]].
  - induction items as [|item rest IH]; simpl.
    + split; [done|]. intros (item & Hin & _). by apply elem_of_nil in Hin.
    + destruct (fn item) eqn:E.
      * split; [|done]. intros _. exists item. split; [by left|done].
      * rewrite IH. split.
        -- intros (x & Hin & Hx). exists x. split; [by right|done].
        -- intros (x & Hin & Hx). apply elem_of_cons in Hin as [->|Hin]; [congruence|].
           by exists x.
  - induction items as [|item rest IH]; simpl; [done|]. by destruct (fn item).
Qed.

(** ** The nodes of a repeated element *)

Section RepeatedLeaf.

Variable stringify : Token -> ConvertState -> string * ConvertState.
Hypothesis stringify_ok : flags_only stringify.

Lemma leaf_element_node rec name value repeat sc w :
  exists nm v s1 s2,
    name_or_none stringify name (w_state w) = Ok nm s1 /\
    value_or_none stringify value s1 = Ok v s2 /\
    repeat_guard s2 = repeat_guard (w_state w) /\
    repeaters s2 = repeaters (w_state w) /\
    convert_element_of stringify rec name value None [] repeat sc w
    = Ok [length (w_store w)]
        (mkWorld s2 (w_store w ++ [mkNode nm v (clone_repeater <$> repeat) None [] sc])).
Proof.
  destruct (renders_name_or_none stringify stringify_ok name (w_state w))
    as (nm & s1 & E1 & G1 & R1).
  destruct (renders_value_or_none stringify stringify_ok value s1) as (v & s2 & E2 & G2 & R2).
  exists nm, v, s1, s2. split; [done|]. split; [done|].
  split; [congruence|]. split; [congruence|].
  unfold convert_element_of, AbbreviationNode_init.
  unfold bind, on_state, alloc, read_node. rewrite E1. simpl. rewrite E2. simpl.
  rewrite list_lookup_total_middle by done.
  by destruct (text_only _).
Qed.

Lemma unroll_leaf_nodes rec name value sc repeat :
  rep_implicit repeat = false ->
  forall remaining i result w g stack top,
    repeat_guard (w_state w) = Some g ->
    repeaters (w_state w) = stack ++ [top] ->
    exists nodes w',
      unroll (fun rp => convert_element_of stringify rec name value None [] rp sc)
        repeat remaining i result w
      = Ok (result ++ seq (length (w_store w)) (length nodes)) w' /\
      Z.of_nat (length nodes) = Z.min (Z.of_nat remaining) (Z.max g 1) /\
      w_store w' = w_store w ++ nodes /\
      (exists top', repeaters (w_state w') = stack ++ [top']) /\
      (forall j n, nodes !! j = Some n ->
         pass_node stringify name value sc (set_rep_value (i + Z.of_nat j) repeat) n).
Proof.
  intros Himp.
  induction remaining as [|remaining IH]; intros i result w g stack top Hg Hst.
  - exists [], w. simpl. rewrite !app_nil_r. split; [done|]. split; [lia|].
    split; [done|]. split; [by exists top|]. intros j n Hj. by rewrite lookup_nil in Hj.
  - simpl. set (current := set_rep_value i repeat).
    destruct (leaf_element_node rec name value (Some current) sc (set_current current w))
      as (nm & v & s1 & s2 & E1 & E2 & G2 & R2 & Eb).
    simpl in E1, G2, R2, Eb. rewrite Hst, set_top_snoc in R2.
    set (node := mkNode nm v (Some (clone_repeater current)) None [] sc) in *.
    set (w1 := mkWorld s2 (w_store w ++ [node])) in *.
    assert (repeat_iteration
              (fun rp => convert_element_of stringify rec name value None [] rp sc)
              repeat i w = Ok [length (w_store w)] w1) as Eit.
    { unfold repeat_iteration. unfold bind at 1, modify. fold current.
      rewrite (bind_ok _ _ _ _ _ Eb). unfold bind at 1, get. simpl. by rewrite Himp. }
    rewrite (bind_ok _ _ _ _ _ Eit).
    set (w2 := mkWorld (set_repeat_guard (Some (g - 1)) s2) (w_store w ++ [node])).
    assert (decrement_guard w1 = Ok (g - 1) w2) as Ed.
    { unfold decrement_guard, on_state, bind, get. simpl. by rewrite G2, Hg. }
    rewrite (bind_ok _ _ _ _ _ Ed).
    assert (pass_node stringify name value sc current node) as Hnode.
    { split; [by destruct repeat|]. split; [done|]. split; [done|]. split; [done|].
      exists (w_state (set_current current w)), s1, s2.
      split; [simpl; by rewrite Hst, set_top_snoc, last_snoc|]. by split. }
    destruct (g - 1 <=? 0) eqn:Ez.
    + apply Z.leb_le in Ez. exists [node], w2. split; [done|].
      split; [simpl; lia|]. split; [done|]. split; [by exists current|].
      intros [|j] n Hj; simpl in Hj; [|by rewrite lookup_nil in Hj].
      simplify_eq. by rewrite Z.add_0_r.
    + apply Z.leb_gt in Ez.
      destruct (IH (i + 1) (result ++ [length (w_store w)]) w2 (g - 1) stack current)
        as (nodes & w' & E & L & Est & Htop & Hnodes); [done|done|].
      exists (node :: nodes), w'. rewrite E. simpl.
      rewrite length_app, <- !app_assoc. simpl.
      replace (length (w_store w) + 1)%nat with (S (length (w_store w))) by lia.
      split; [done|]. split; [lia|].
      split; [rewrite Est; simpl; by rewrite <- app_assoc|]. split; [done|].
      intros [|j] n Hj; simpl in Hj.
      * simplify_eq. by rewrite Z.add_0_r.
      * apply Hnodes in Hj.
        by replace (i + Z.of_nat (S j)) with (i + 1 + Z.of_nat j) by lia.
Qed.

(** X20.  An element without children and attributes that is repeated
    [count] times, not implicitly, gives one new node for every pass, in a
    row at the end of the store.  The node of pass j carries a copy of the
    repeater with the count and the value j, and its name and value were
    rendered while that repeater was on top of the stack, so a numbering
    token in them sees j.  The passes are the least of the count and the
    guard, but one when the guard is used up. *)
Theorem repeated_leaf_nodes name value r sc w g :
  rep_implicit r = false ->
  repeat_guard (w_state w) = Some g ->
  exists nodes w',
    convert_statement stringify (TokenElement name value None [] (Some r) sc) w
    = Ok (seq (length (w_store w)) (length nodes)) w' /\
    Z.of_nat (length nodes) = Z.max 0 (Z.min (count_or_1 (rep_count r)) (Z.max g 1)) /\
    w_store w' = w_store w ++ nodes /\
    (forall j n, nodes !! j = Some n ->
       pass_node stringify name value sc
         (mkRepeater (Some (count_or_1 (rep_count r))) (Z.of_nat j) false) n).
Proof.
  intros Himp Hg. rewrite convert_statement_eq. simpl.
  unfold unroll_statement. unfold bind at 1, get.
  unfold effective_count. simpl. rewrite Himp.
  set (count := count_or_1 (rep_count r)).
  set (repeat := set_count count (clone_repeater r)).
  unfold bind at 1, push_repeater, on_state, modify. simpl.
  set (w1 := mkWorld _ _).
  destruct (unroll_leaf_nodes (convert_statement stringify) name value sc repeat Himp
              (Z.to_nat count) 0 [] w1 g (repeaters (w_state w)) repeat Hg eq_refl)
    as (nodes & w2 & E & L & Est & (top' & R) & Hnodes).
  rewrite (bind_ok _ _ _ _ _ E). simpl.
  unfold bind at 1, pop_repeater, on_state. unfold bind at 1, get. rewrite R.
  destruct (repeaters (w_state w) ++ [top']) as [|t0 ts] eqn:Ets;
    [by destruct (repeaters (w_state w))|].
  unfold put, bind, ret. eexists nodes, _. split; [done|].
  split; [lia|]. split; [done|].
  intros j n Hj. apply Hnodes in Hj.
  replace (mkRepeater (Some count) (Z.of_nat j) false)
    with (set_rep_value (0 + Z.of_nat j) repeat); [done|].
  unfold set_rep_value, repeat, set_count. simpl. by rewrite Himp.
Qed.

End RepeatedLeaf.

(** [li*3] under a guard of 10. *)
Lemma repeated_leaf_nodes_witness :
  exists nodes w',
    convert_statement sample_stringify (tag_times "li" 3) (start TextNone (Some 10))
    = Ok (seq (length (w_store (start TextNone (Some 10)))) (length nodes)) w' /\
    Z.of_nat (length nodes) = Z.max 0 (Z.min (count_or_1 (Some 3)) (Z.max 10 1)) /\
    w_store w' = w_store (start TextNone (Some 10)) ++ nodes /\
    (forall j n, nodes !! j = Some n ->
       pass_node sample_stringify (Some [Literal "li"]) None false
         (mkRepeater (Some (count_or_1 (Some 3))) (Z.of_nat j) false) n).
Proof.
  exact (repeated_leaf_nodes sample_stringify sample_stringify_flags_only
           (Some [Literal "li"]) None (mkRepeater (Some 3) 0 false) false
           (start TextNone (Some 10)) 10 eq_refl eq_refl).
Defined.

(** ** The children of an element *)

Section ElementChildren.

Variable stringify : Token -> ConvertState -> string * ConvertState.

Lemma convert_children_items rec st0 elem elements :
  Forall (fun child => store_safe (rec child)) elements ->
  forall w u w',
    collecting st0 (w_store w) elem ->
    convert_children rec elem elements w = Ok u w' ->
    exists runs,
      Forall2 (fun child items => exists wa wb, rec child wa = Ok items wb) elements runs /\
      n_children (w_store w' !!! elem) = n_children (w_store w !!! elem) ++ concat runs.
Proof.
  induction 1 as [|child rest Hc _ IH]; intros w u w' Hco H; simpl in H.
  - apply ret_inv in H as [_ <-]. exists []. split; [constructor|].
    simpl. by rewrite app_nil_r.
  - mstep H as items w1 Hchild. mstep H as u2 w2 Hup. apply update_node_inv in Hup as ->.
    pose proof (Hc _ _ _ (co_wf _ _ _ Hco) (co_owned _ _ _ Hco) Hchild) as Hs.
    pose proof (collecting_add _ _ _ _ _ Hco Hs) as Hco2.
    destruct (IH (mkWorld (w_state w1) (alter (add_children items) elem (w_store w1)))
                _ _ Hco2 H) as (runs & Hruns & Hkids).
    exists (items :: runs). split; [constructor; [by eexists _, _|done]|].
    rewrite Hkids. simpl.
    assert (elem < length (w_store w))%nat as Hlt
      by (rewrite (co_elem _ _ _ Hco); apply (co_length _ _ _ Hco)).
    rewrite list_lookup_total_alter_eq by (pose proof (ss_length _ _ _ Hs); lia).
    simpl. rewrite (lookup_total_eq _ _ _ (ss_frame _ _ _ Hs _ Hlt)).
    by rewrite <- app_assoc.
Qed.

(** X21.  The children of the node [convert_element] makes are the nodes
    its child statements returned, statement by statement in the order of
    the statements, and nothing else; the node itself is the first of the
    returned list. *)
Theorem convert_element_children name value attributes elements repeat sc w ids w' :
  well_formed (w_store w) -> owned (w_store w) ->
  convert_element stringify (TokenElement name value attributes elements repeat sc) w
  = Ok ids w' ->
  exists e runs,
    w_store w' !! length (w_store w) = Some e /\
    head ids = Some (length (w_store w)) /\
    Forall2 (fun child items =>
               exists wa wb, convert_statement stringify child wa = Ok items wb)
      elements runs /\
    n_children e = concat runs.
Proof.
  intros Hwf Hown H. simpl in H. unfold convert_element_of in H.
  mstep H as elem w1 Hinit.
  apply AbbreviationNode_init_inv in Hinit as (n & Hn & Hattr & -> & Est).
  assert (Forall (fun child => store_safe (convert_statement stringify child)) elements) as Hel
    by (apply Forall_forall; intros child _; apply convert_statement_safe).
  assert (collecting (w_store w) (w_store w1) (length (w_store w))) as Hco
    by (rewrite Est; by apply collecting_start).
  mstep H as u2 w2 Hkids.
  destruct (convert_children_items _ _ _ _ Hel w1 _ _ Hco Hkids) as (runs & Hruns & Hc).
  pose proof (convert_children_safe _ _ _ _ Hel w1 _ _ Hco Hkids) as Hco2.
  rewrite Est, list_lookup_total_middle, Hn in Hc by done. simpl in Hc.
  pose proof (co_length _ _ _ Hco2) as Hlen.
  mstep H as u3 w3 Hattrs.
  mstep H as e w4 Hread. apply read_node_inv in Hread as [-> ->].
  assert (w' = w3 /\ head ids = Some (length (w_store w))) as [-> Hhead]
    by (destruct (text_only _); by apply ret_inv in H as [<- <-]).
  exists (w_store w3 !!! length (w_store w)), runs.
  assert (length (w_store w3) = length (w_store w2) /\
          n_children (w_store w3 !!! length (w_store w)) =
          n_children (w_store w2 !!! length (w_store w))) as [Hl3 Hc3].
  { destruct attributes as [[|token tokens]|].
    - by apply ret_inv in Hattrs as [_ <-].
    - mstep Hattrs as out w5 Hconv. apply on_state_inv in Hconv as (s5 & Hconv & ->).
      apply update_node_inv in Hattrs as ->. simpl.
      split; [apply length_alter|]. by rewrite list_lookup_total_alter_eq by lia.
    - by apply ret_inv in Hattrs as [_ <-]. }
  split; [apply list_lookup_lookup_total_lt; lia|].
  split; [done|]. split; [done|]. by rewrite Hc3.
Qed.

(** X22.  An empty group that is repeated implicitly, at least once, while
    no placeholder has taken the text fails with IndexError: its pass makes
    no node, and the loop asks for the last one. *)
Theorem implicit_empty_group r w :
  rep_implicit r = true -> inserted (w_state w) = false ->
  1 <= effective_count r (w_state w) ->
  convert_statement stringify (TokenGroup [] (Some r)) w = Raise IndexError.
Proof.
  intros Himp Hins Hc. rewrite convert_statement_eq. simpl.
  unfold unroll_statement. unfold bind at 1, get.
  change (effective_count (clone_repeater r) (w_state w))
    with (effective_count r (w_state w)).
  destruct (Z.to_nat (effective_count r (w_state w))) as [|remaining] eqn:En; [lia|].
  unfold bind at 1, push_repeater, on_state, modify. simpl.
  unfold bind at 1. unfold repeat_iteration. unfold bind at 1, modify.
  unfold bind at 1, convert_group_of. simpl.
  unfold bind at 1, ret at 1. unfold attach_repeater. simpl.
  unfold bind at 1, ret at 1. unfold bind at 1, ret at 1.
  unfold bind at 1, get. simpl. rewrite Himp, Hins. done.
Qed.

End ElementChildren.

(** ** Examples for the properties above *)

Lemma attribute_name_rebuilt_witness :
  exists rendered,
    name_or_none sample_stringify (tattr_name checked_attribute)
      (initial_state (options_of TextNone None))
    = Ok rendered (initial_state (options_of TextNone None)) /\
    attr_value (mkAttribute (Some "checked") None raw true true) = None /\
    attr_value_type (mkAttribute (Some "checked") None raw true true) = raw /\
    match rendered with
    | Some (String c rest) =>
        exists name,
          Some "checked" = Some name /\
          true = is_char "." (str_last (String c rest)) /\
          true = is_char "!" (str_first (str_drop_last (String c rest))) /\
          String c rest = "!" +:+ name +:+ "."
    | _ => Some "checked" = rendered /\ true = false /\ true = false
    end.
Proof.
  exact (attribute_name_rebuilt sample_stringify checked_attribute
           (initial_state (options_of TextNone None))
           (mkAttribute (Some "checked") None raw true true)
           (initial_state (options_of TextNone None)) eq_refl).
Defined.

(** [{x], [x] and a missing value. *)
Lemma convert_attribute_value_witness :
  convert_attribute sample_stringify
    (mkTokenAttribute None (Some (Bracket true BExpression :: [] ++ [Literal "x"])) false)
    (initial_state (options_of TextNone None))
  = Ok (mkAttribute None (Some [SegStr "x"]) expression false false)
      (initial_state (options_of TextNone None)) /\
  convert_attribute sample_stringify
    (mkTokenAttribute None (Some [Literal "x"]) false)
    (initial_state (options_of TextNone None))
  = Ok (mkAttribute None (Some [SegStr "x"]) raw false false)
      (initial_state (options_of TextNone None)) /\
  attr_value (mkAttribute None None raw false false) = None.
Proof.
  destruct (convert_attribute_value sample_stringify) as (_ & H2 & H3 & H4).
  split; [|split].
  - rewrite (H2 None [] (Literal "x") false _ eq_refl). reflexivity.
  - rewrite (H3 None (Literal "x") [] false _ eq_refl eq_refl). reflexivity.
  - exact (H4 None None false (initial_state (options_of TextNone None)) _ _
             (or_introl eq_refl) eq_refl).
Defined.

Lemma convert_element_attributes_witness :
  match convert_element sample_stringify a_href (start TextNone (Some 10)) with
  | Ok ids w' =>
      exists e,
        w_store w' !! length (w_store (start TextNone (Some 10))) = Some e /\
        exists out,
          n_attributes e = Some out /\
          length out = 1%nat /\
          Forall2 (fun token attr =>
                     exists s1 s2, convert_attribute sample_stringify token s1 = Ok attr s2)
            [mkTokenAttribute (Some [Literal "href"]) (Some [Literal "x"]) false] out
  | Raise _ => False
  end.
Proof.
  destruct (convert_element sample_stringify a_href (start TextNone (Some 10)))
    as [ids w'|e] eqn:E.
  - exact (convert_element_attributes sample_stringify _ _ _ _ _ _
             (start TextNone (Some 10)) ids w' well_formed_nil owned_nil E).
  - vm_compute in E. discriminate E.
Defined.

Lemma ul_li_well_formed : well_formed ul_li.
Proof.
  intros p c H. unfold parent_of in H.
  destruct p as [|[|p]]; simpl in H.
  - apply list_elem_of_singleton in H as ->. simpl. lia.
  - by apply elem_of_nil in H.
  - by apply elem_of_nil in H.
Qed.

Lemma deepest_node_is_leaf_witness :
  exists d,
    deepest_node 0 (mkWorld (initial_state (options_of TextNone None)) ul_li)
    = Ok d (mkWorld (initial_state (options_of TextNone None)) ul_li) /\
    (0 <= d < length ul_li)%nat /\
    n_children (ul_li !!! d) = [] /\
    deepest_node d (mkWorld (initial_state (options_of TextNone None)) ul_li)
    = Ok d (mkWorld (initial_state (options_of TextNone None)) ul_li) /\
    (n_children (ul_li !!! 0%nat) = [] -> d = 0%nat) /\
    (forall child, last (n_children (ul_li !!! 0%nat)) = Some child ->
       deepest_node child (mkWorld (initial_state (options_of TextNone None)) ul_li)
       = Ok d (mkWorld (initial_state (options_of TextNone None)) ul_li)).
Proof.
  apply (deepest_node_is_leaf 0 (mkWorld (initial_state (options_of TextNone None)) ul_li)
           ul_li_well_formed).
  simpl. lia.
Defined.

Lemma convert_element_children_witness :
  match convert_element sample_stringify ul_li_li (start TextNone (Some 10)) with
  | Ok ids w' =>
      exists e runs,
        w_store w' !! length (w_store (start TextNone (Some 10))) = Some e /\
        head ids = Some (length (w_store (start TextNone (Some 10)))) /\
        Forall2 (fun child items =>
                   exists wa wb, convert_statement sample_stringify child wa = Ok items wb)
          [tag "li"; tag "li"] runs /\
        n_children e = concat runs
  | Raise _ => False
  end.
Proof.
  destruct (convert_element sample_stringify ul_li_li (start TextNone (Some 10)))
    as [ids w'|e] eqn:E.
  - exact (convert_element_children sample_stringify _ _ _ _ _ _
             (start TextNone (Some 10)) ids w' well_formed_nil owned_nil E).
  - vm_compute in E. discriminate E.
Defined.

(** [()*] with the text lines [a] and [b]. *)
Lemma implicit_empty_group_witness :
  convert_statement sample_stringify (TokenGroup [] (Some (mkRepeater None 0 true)))
    (start (TextList ["a"; "b"]) (Some 10))
  = Raise IndexError.
Proof.
  apply (implicit_empty_group sample_stringify (mkRepeater None 0 true)
           (start (TextList ["a"; "b"]) (Some 10)) eq_refl eq_refl).
  vm_compute. discriminate.
Defined.

(** ** The text of an implicit repeater *)



Section ImplicitPasses.

Variable body : option Repeater -> M World (list nat).
Hypothesis body_safe : forall r, store_safe (body r).
Hypothesis body_evolves : forall r, world_evolves (body r).

Variable repeat : Repeater.
Hypothesis repeat_implicit : rep_implicit repeat = true.

Variable lines : list string.



End ImplicitPasses.

Section ImplicitRepeat.

Variable stringify : Token -> ConvertState -> string * ConvertState.


End ImplicitRepeat.


